(** * MobileNet-SSD conversion notebook (examples/ssd_example.ipynb)

    A shallow embedding of the notebook's own code: the numeric comparison
    [max_relative_error] with the numpy array operations it calls, the
    tensor-name rewriting, the acquisition cell and the sequential workflow
    of external library calls, together with a model of graph pruning.

    Array elements are exact rationals ([Q]): they stand for the finite
    values of the float arrays the notebook handles; NaN, infinities and
    rounding are outside this model.  Results on [Q] are compared with
    [Qeq] ([==]). *)

From Stdlib Require Import QArith Qminmax Qabs Lia Lqa Ascii String.
From stdpp Require Import gmap strings list.

(** ** Python exceptions and results *)

Inductive exc :=
  | ValueError
  | KeyError
  | TypeError
  | IndexError
  | AttributeError
  | OSError
  | LibraryError (what : string).

Inductive result (A : Type) :=
  | Ok (a : A)
  | Raise (e : exc).
Arguments Ok {A} a.
Arguments Raise {A} e.

#[global] Instance exc_eq_dec : EqDecision exc.
Proof. solve_decision. Defined.

#[global] Instance result_ret : MRet result := fun A a => Ok a.
#[global] Instance result_bind : MBind result := fun A B f m =>
  match m with
  | Ok a => f a
  | Raise e => Raise e
  end.

(** ** numpy arrays: a shape and the elements in row-major order *)

Record ndarray := NdArray { shape : list nat; data : list Q }.

Definition size_of (s : list nat) : nat := foldr Nat.mul 1 s.

(** The invariant every numpy array satisfies. *)
Definition wf (a : ndarray) : Prop := length (data a) = size_of (shape a).

(** All multi-indices of a shape, in row-major (C) order. *)
Fixpoint indices (s : list nat) : list (list nat) :=
  match s with
  | [] => [[]]
  | d :: s' => i ← seq 0 d; cons i <$> indices s'
  end.

(** Flat offset of a multi-index. *)
Fixpoint ravel (s idx : list nat) : nat :=
  match s, idx with
  | _ :: s', i :: idx' => i * size_of s' + ravel s' idx'
  | _, _ => 0
  end.

(** [a[idx]] for an in-range multi-index. *)
Definition item (a : ndarray) (idx : list nat) : Q :=
  nth (ravel (shape a) idx) (data a) 0%Q.

Definition in_range (s idx : list nat) : Prop := Forall2 lt idx s.

(** *** Broadcasting of binary element-wise operations *)

Fixpoint broadcast_rev (r1 r2 : list nat) : option (list nat) :=
  match r1, r2 with
  | [], r | r, [] => Some r
  | d1 :: r1', d2 :: r2' =>
      if decide (d1 = d2) then cons d1 <$> broadcast_rev r1' r2'
      else if decide (d1 = 1) then cons d2 <$> broadcast_rev r1' r2'
      else if decide (d2 = 1) then cons d1 <$> broadcast_rev r1' r2'
      else None
  end.

Definition broadcast_shapes (s1 s2 : list nat) : option (list nat) :=
  reverse <$> broadcast_rev (reverse s1) (reverse s2).

(** The index of the operand element that position [idx] of the broadcast
    result reads: leading axes are dropped, axes of extent 1 are pinned. *)
Definition source_index (s idx : list nat) : list nat :=
  zip_with (fun d i => if decide (d = 1) then 0 else i) s
           (drop (length idx - length s) idx).

Definition broadcast_to (a : ndarray) (s : list nat) : ndarray :=
  {| shape := s;
     data := (fun idx => item a (source_index (shape a) idx)) <$> indices s |}.

Definition np_binary (f : Q -> Q -> Q) (x y : ndarray) : result ndarray :=
  match broadcast_shapes (shape x) (shape y) with
  | None => Raise ValueError
  | Some s =>
      Ok {| shape := s;
            data := zip_with f (data (broadcast_to x s)) (data (broadcast_to y s)) |}
  end.

Definition np_maximum : ndarray -> ndarray -> result ndarray := np_binary Qmax.
Definition np_subtract : ndarray -> ndarray -> result ndarray := np_binary Qminus.

(** [x / y].  Where the divisor is 0 numpy answers inf or nan, which no
    rational stands for; [Qdiv] answers 0 there.  The divisor of
    [max_relative_error] is never 0, as shown below. *)
Definition np_divide : ndarray -> ndarray -> result ndarray := np_binary Qdiv.

(** [np.maximum(a, c)] with a Python scalar [c]. *)
Definition np_maximum_scalar (a : ndarray) (c : Q) : ndarray :=
  {| shape := shape a; data := (fun q => Qmax q c) <$> data a |}.

Definition np_abs (a : ndarray) : ndarray :=
  {| shape := shape a; data := Qabs <$> data a |}.

(** [np.max(a)]: the maximum over all elements; a zero-size array has no
    maximum and numpy raises [ValueError]. *)
Definition np_max (a : ndarray) : result Q :=
  match data a with
  | [] => Raise ValueError
  | q :: qs => Ok (foldl Qmax q qs)
  end.

(** [a.squeeze()]: axes of extent 1 are removed, the elements stay. *)
Definition squeeze (a : ndarray) : ndarray :=
  {| shape := filter (fun d => d ≠ 1) (shape a); data := data a |}.

(** The index into the operand of [np.transpose(a, axes)] that position
    [idx] of the result reads: result axis [k] is operand axis [axes[k]]. *)
Definition transposed_index (axes idx : list nat) : list nat :=
  (fun j => default 0 (snd <$> List.find (fun p => Nat.eqb (fst p) j) (zip axes idx)))
    <$> seq 0 (length axes).

Definition np_transpose (a : ndarray) (axes : list nat) : result ndarray :=
  if decide (length axes = length (shape a) ∧ NoDup axes
             ∧ Forall (fun p => p < length (shape a)) axes)
  then
    let s := (fun p => nth p (shape a) 0) <$> axes in
    Ok {| shape := s;
          data := (fun idx => item a (transposed_index axes idx)) <$> indices s |}
  else Raise ValueError.

(** ** The comparison cell *)

(** Lines 226-227: the denominator array. *)
Definition denominator (x y : ndarray) : result ndarray :=
  den ← np_maximum x y;
  mret (np_maximum_scalar den 1).

(** [max_relative_error], lines 225-229. *)
Definition max_relative_error (x y : ndarray) : result Q :=
  den ← np_maximum x y;
  let den := np_maximum_scalar den 1 in
  diff ← np_subtract x y;
  rel_err ← np_divide (np_abs diff) den;
  np_max rel_err.

(** Lines 231-234: each TensorFlow output is squeezed and its two axes
    swapped, then compared with the squeezed CoreML output. *)
Definition rel_error (coreml_out tf_out : ndarray) : result Q :=
  let c := squeeze coreml_out in
  t ← np_transpose (squeeze tf_out) [1; 0];
  max_relative_error c t.

(** *** The comparison as the specification words it *)

Definition positions (a : ndarray) : list (list nat) := indices (shape a).

(** [|x[i]-y[i]| / max(max(x[i],y[i]), 1)] *)
Definition relative_error_at (x y : ndarray) (i : list nat) : Q :=
  (Qabs (item x i - item y i) / Qmax (Qmax (item x i) (item y i)) 1)%Q.

(** [|x[i]-y[i]|] *)
Definition abs_difference_at (x y : ndarray) (i : list nat) : Q :=
  Qabs (item x i - item y i).

(** [m] is the maximum of [vals]: one of them, and no smaller than any. *)
Definition is_maximum (m : Q) (vals : list Q) : Prop :=
  m ∈ vals ∧ Forall (fun v => (v <= m)%Q) vals.

(** Two outcomes agree: the same exception, or equal numbers. *)
Definition same_result (r1 r2 : result Q) : Prop :=
  match r1, r2 with
  | Ok p, Ok q => (p == q)%Q
  | Raise e1, Raise e2 => e1 = e2
  | _, _ => False
  end.

(** The same formula on two numbers. *)
Definition ratio (a b : Q) : Q := (Qabs (a - b) / Qmax (Qmax a b) 1)%Q.

(** The array of shape [(0,)]: it has no element. *)
Definition empty_array : ndarray := NdArray [0] [].

(** ** Tensor names and CoreML feature names *)

(** Python's [s.replace(old, new)]: occurrences of [old] are replaced from
    left to right without overlap.  [skip] counts the characters of a
    matched occurrence that are still to be passed over. *)
Fixpoint replace_from (old new s : string) (skip : nat) : string :=
  match s with
  | "" => ""
  | String c s' =>
      match skip with
      | S k => replace_from old new s' k
      | 0 =>
          if String.prefix old s
          then new +:+ replace_from old new s' (String.length old - 1)
          else String c (replace_from old new s' 0)
      end
  end.

(** With an empty [old], Python inserts [new] around every character. *)
Fixpoint surround (new s : string) : string :=
  match s with
  | "" => new
  | String c s' => new +:+ String c (surround new s')
  end.

Definition str_replace (old new s : string) : string :=
  match old with
  | "" => surround new s
  | _ => replace_from old new s 0
  end.

(** Lines 203-205, as a function of the TensorFlow names. *)
Definition coreml_name (tf_name : string) : string :=
  str_replace "/" "__" (str_replace ":" "__" tf_name).

Definition coreml_output_names (tf_output_names : list string) : list string :=
  coreml_name <$> tf_output_names.

Definition tf_input_name : string := "Preprocessor/sub:0".
Definition tf_output_names : list string := ["concat:0"; "concat_1:0"].

(** The renaming said character by character: every [':'] and every
    ['/'] becomes ["__"], every other character stays. *)
Definition rename_char (c : ascii) : string :=
  if decide (c = ":"%char ∨ c = "/"%char) then "__" else String c "".

Fixpoint feature_name (s : string) : string :=
  match s with
  | "" => ""
  | String c s' => rename_char c +:+ feature_name s'
  end.

(** Replacing the single character [c] by [new], position by position. *)
Fixpoint replace_char (c : ascii) (new s : string) : string :=
  match s with
  | "" => ""
  | String d s' =>
      (if decide (d = c) then new else String d "") +:+ replace_char c new s'
  end.

(** ** Graph pruning

    The pruner is TensorFlow's; what follows is a model of it from its
    contract: a graph is a list of named nodes, each with the names of
    the nodes it reads from. *)

Inductive op :=
  | Placeholder (dtype : nat)
  | Operation (kind : string).

Record node := Node {
  node_name : string;
  node_op : op;
  node_input : list string
}.

#[global] Instance op_eq_dec : EqDecision op.
Proof. solve_decision. Defined.
#[global] Instance node_eq_dec : EqDecision node.
Proof. solve_decision. Defined.

(** The names a node named [x] reads from. *)
Definition inputs_of (g : list node) (x : string) : list string :=
  n ← g; if decide (node_name n = x) then node_input n else [].

(** The edges the backward traversal follows: it goes from a node to its
    inputs and stops at the declared input nodes. *)
Definition predecessors (g : list node) (input_node_names : list string)
    (x : string) : list string :=
  if decide (x ∈ input_node_names) then [] else inputs_of g x.

(** Breadth-first traversal with a visited set and an explicit queue. *)
Fixpoint traverse (fuel : nat) (next : string → list string)
    (queue : list string) (visited : gset string) : gset string :=
  match fuel with
  | 0 => visited
  | S fuel' =>
      match queue with
      | [] => visited
      | x :: queue' =>
          if decide (x ∈ visited) then traverse fuel' next queue' visited
          else traverse fuel' next (queue' ++ next x) ({[x]} ∪ visited)
      end
  end.

(** What is left to explore: every unvisited node with its edges. *)
Definition unexplored (g : list node) (visited : gset string) : nat :=
  sum_list ((fun n => if decide (node_name n ∈ visited) then 0
                      else S (length (node_input n))) <$> g).

Definition reachable_names (g : list node) (input_node_names
    output_node_names : list string) : gset string :=
  traverse (length output_node_names + unexplored g ∅)
           (predecessors g input_node_names) output_node_names ∅.

Definition as_placeholder (placeholder_type_enum : nat) (n : node) : node :=
  {| node_name := node_name n;
     node_op := Placeholder placeholder_type_enum;
     node_input := [] |}.

Definition rewrite_inputs (placeholder_type_enum : nat)
    (input_node_names : list string) (g : list node) : list node :=
  (fun n => if decide (node_name n ∈ input_node_names)
            then as_placeholder placeholder_type_enum n else n) <$> g.

(** Modelled from the spec: [strip_unused_lib.strip_unused], the graph
    pruner the notebook imports from TensorFlow at line 88 and calls at
    lines 93-97; its code is not part of this repository.  Following the
    contract of the Graph Pruner (section 4.3): the node set reachable
    backward from the outputs to the inputs is computed, the input nodes
    are rewritten to the declared placeholder type, and the graph of the
    reachable nodes is returned, in the order of the original graph. *)
Definition strip_unused (input_graph_def : list node)
    (input_node_names output_node_names : list string)
    (placeholder_type_enum : nat) : list node :=
  let keep := reachable_names input_graph_def input_node_names output_node_names in
  rewrite_inputs placeholder_type_enum input_node_names
    (filter (fun n => node_name n ∈ keep) input_graph_def).

Definition node_set (g : list node) : gset string :=
  list_to_set (node_name <$> g).

(** ** The workflow: library calls, the file system and the call log *)

(** Python values that pass between the notebook and the libraries. *)
#[warnings="-register-all"] Inductive value :=
  | VNone
  | VBool (b : bool)
  | VInt (n : Z)
  | VStr (s : string)
  | VArray (a : ndarray)
  | VList (vs : list value)
  | VDict (items : list (string * value))
  | VObject (handle : nat).

(** A call into a library: the function and its arguments. *)
Record call := Call { fn : string; args : list value }.

(** An entry of the log: the call and how it came back. *)
Definition event : Type := call * result value.

Record world := World {
  fs : gset string;            (* the paths that exist *)
  log : list event             (* the library calls made so far, oldest first *)
}.

(** The libraries and the outside world: what a call answers in a given
    state and the paths that exist after it. *)
Definition env : Type := call → world → result value * gset string.

(** Notebook code: it reads the environment, changes the world and
    returns a value or raises. *)
Definition M (A : Type) : Type := env → world → result A * world.

#[global] Instance M_ret : MRet M := fun A a _ w => (Ok a, w).
#[global] Instance M_bind : MBind M := fun A B f m E w =>
  match m E w with
  | (Ok a, w') => f a E w'
  | (Raise e, w') => (Raise e, w')
  end.

(** A pure computation that may raise. *)
Definition lift {A} (r : result A) : M A := fun _ w => (r, w).

Definition record (c : call) (r : result value) (paths : gset string)
    (w : world) : world :=
  {| fs := paths; log := log w ++ [(c, r)] |}.

(** A call whose behaviour is the library's. *)
Definition extern (f : string) (xs : list value) : M value := fun E w =>
  let c := Call f xs in
  let '(r, paths) := E c w in
  (r, record c r paths w).

(** [os.path.exists(path)]: never raises. *)
Definition os_path_exists (path : string) : M bool := fun _ w =>
  let b := bool_decide (path ∈ fs w) in
  (Ok b, record (Call "os.path.exists" [VStr path]) (Ok (VBool b)) (fs w) w).

(** [os.makedirs(path)]: raises [OSError] when the path exists, or when
    the operating system refuses; otherwise the directory exists
    afterwards. *)
Definition os_makedirs (path : string) : M unit := fun E w =>
  let c := Call "os.makedirs" [VStr path] in
  if decide (path ∈ fs w) then (Raise OSError, record c (Raise OSError) (fs w) w)
  else match E c w with
       | (Raise e, _) => (Raise e, record c (Raise e) (fs w) w)
       | (Ok _, _) => (Ok (), record c (Ok VNone) ({[path]} ∪ fs w) w)
       end.

(** [try: body finally: cleanup]: the cleanup runs either way; the
    outcome of the body stands unless the cleanup raises. *)
Definition finally {A} (body : M A) (cleanup : M value) : M A := fun E w =>
  let '(r, w1) := body E w in
  match cleanup E w1 with
  | (Ok _, w2) => (r, w2)
  | (Raise e, w2) => (Raise e, w2)
  end.

(** [try: body except Exception as e: handler(e)]; the notebook has no
    such statement. *)
Definition try_except {A} (body : M A) (handler : exc → M A) : M A := fun E w =>
  match body E w with
  | (Ok a, w1) => (Ok a, w1)
  | (Raise e, w1) => handler e E w1
  end.

(** [with f(xs) as v: body].  None of the context managers the notebook
    uses returns a true value from [__exit__], so an exception of the body
    is raised again after the exit call. *)
Definition with_ {A} (f : string) (xs : list value) (body : value → M A) : M A :=
  v ← extern f xs;
  finally (body v) (extern "__exit__" [v]).

(** *** Conversions that raise on a value of the wrong kind *)

Definition as_array (v : value) : result ndarray :=
  match v with
  | VArray a => Ok a
  | _ => Raise AttributeError
  end.

(** [a, b = v]; the runtimes hand back lists, and a value of another
    kind counts as not iterable here. *)
Definition unpack2 (v : value) : result (value * value) :=
  match v with
  | VList [a; b] => Ok (a, b)
  | VList _ => Raise ValueError
  | _ => Raise TypeError
  end.

(** [d[key]] *)
Definition getitem (d : value) (key : string) : result value :=
  match d with
  | VDict items =>
      match List.find (fun kv => bool_decide (fst kv = key)) items with
      | Some kv => Ok (snd kv)
      | None => Raise KeyError
      end
  | _ => Raise TypeError
  end.

(** [a[None, :, :, :]] and the like: [n] new leading axes of extent 1,
    followed by [slices] full slices; more slices than [a] has axes raise
    [IndexError]. *)
Definition new_axes (n slices : nat) (a : ndarray) : result ndarray :=
  if decide (slices ≤ length (shape a))
  then Ok {| shape := replicate n 1 ++ shape a; data := data a |}
  else Raise IndexError.

(** [a.astype(np.float32) * 2.0 / 255 - 1] *)
Definition normalize (a : ndarray) : ndarray :=
  {| shape := shape a; data := (fun q => q * 2 / 255 - 1)%Q <$> data a |}.

(** *** The cells

    Each statement of the notebook that calls a library is one [extern]
    (or one of the two [os] functions above), in the order of the
    notebook; the [import] statements and the [%matplotlib] directive are
    left out. *)

Definition mobilenet_ssd_url : string :=
  "https://storage.googleapis.com/download.tensorflow.org/models/object_detection/ssd_mobilenet_v1_android_export.zip".
Definition example_dir : string := "/tmp/tfcoreml_ssd_example/".
Definition mobilenet_ssd_fpath : string :=
  example_dir +:+ "ssd_mobilenet_v1_android_export.zip".
Definition tf_model_path : string :=
  example_dir +:+ "ssd_mobilenet_v1_android_export.pb".
Definition frozen_model_file : string :=
  example_dir +:+ "ssd_mobilenet_feature_extractor.pb".
Definition coreml_model_file : string :=
  example_dir +:+ "ssd_mobilenet_feature_extractor.mlmodel".
Definition img_url : string :=
  "https://upload.wikimedia.org/wikipedia/commons/9/93/Golden_Retriever_Carlos_%2810581910556%29.jpg".
Definition input_node_names : list string := ["Preprocessor/sub"].
Definition output_node_names : list string := ["concat"; "concat_1"].
Definition output_tensor_names : list string := ["concat:0"; "concat_1:0"].
Definition input_tensor_shapes : value :=
  VDict [("Preprocessor/sub:0", VList [VInt 1; VInt 300; VInt 300; VInt 3])].

(** Lines 42-43. *)
Definition ensure_directory : M unit :=
  present ← os_path_exists example_dir;
  if negb present then os_makedirs example_dir else mret ().

(** Lines 44-48. *)
Definition download_and_extract : M unit :=
  extern "urllib.urlretrieve" [VStr mobilenet_ssd_url; VStr mobilenet_ssd_fpath];;
  zip_ref ← extern "zipfile.ZipFile" [VStr mobilenet_ssd_fpath; VStr "r"];
  extern "ZipFile.extractall" [zip_ref; VStr example_dir];;
  extern "ZipFile.close" [zip_ref];;
  mret ().

(** Lines 40-48: the acquisition cell. *)
Definition acquisition : M unit :=
  ensure_directory;;
  download_and_extract.

(** Lines 58-66: the graph definition is read and parsed. *)
Definition load_graph : M value :=
  serialized ← with_ "open" [VStr tf_model_path; VStr "rb"]
                  (fun f => extern "file.read" [f]);
  extern "tf.reset_default_graph" [];;
  original_gdef ← extern "tf.GraphDef" [];
  extern "GraphDef.ParseFromString" [original_gdef; serialized];;
  graph ← extern "tf.Graph" [];
  with_ "Graph.as_default" [graph]
    (fun g => extern "tf.import_graph_def" [original_gdef; VStr ""]);;
  mret original_gdef.

(** Lines 91-101: the graph is pruned and saved. *)
Definition prune_graph (original_gdef : value) : M value :=
  gdef ← extern "strip_unused_lib.strip_unused"
           [original_gdef; VList (VStr <$> input_node_names);
            VList (VStr <$> output_node_names); VInt 1];
  with_ "gfile.GFile" [VStr frozen_model_file; VStr "wb"]
    (fun f =>
       bytes ← extern "GraphDef.SerializeToString" [gdef];
       extern "GFile.write" [f; bytes]);;
  mret gdef.

(** Lines 113-124. *)
Definition convert : M value :=
  extern "tfcoreml.convert"
    [VStr frozen_model_file; VStr coreml_model_file; input_tensor_shapes;
     VList (VStr <$> output_tensor_names)].

(** Lines 147-151. *)
Definition load_image : M value :=
  response ← extern "requests.get" [VStr img_url];
  content ← extern "BytesIO" [response];
  img ← extern "PIL.Image.open" [content];
  pixels ← extern "np.asarray" [img];
  extern "imshow" [pixels];;
  mret img.

(** Lines 161-179: the image is preprocessed and the TensorFlow graph is
    evaluated. *)
Definition evaluate_tf (img gdef : value) : M (ndarray * value * value) :=
  img ← extern "Image.resize" [img; VList [VInt 300; VInt 300]; VStr "ANTIALIAS"];
  pixels ← extern "np.array" [img];
  pixels ← lift (as_array pixels);
  let img_array := normalize pixels in
  batch_img_array ← lift (new_axes 1 3 img_array);
  extern "tf.reset_default_graph" [];;
  g ← extern "tf.import_graph_def" [gdef];
  with_ "tf.Session" [g]
    (fun sess =>
       image_input_tensor ←
         extern "Graph.get_tensor_by_name" [sess; VStr ("import/" +:+ tf_input_name)];
       tf_output_tensors ←
         mapM (fun output_name =>
                 extern "Graph.get_tensor_by_name"
                   [sess; VStr ("import/" +:+ output_name)])
              tf_output_names;
       tf_output_values ←
         extern "Session.run"
           [sess; VList tf_output_tensors;
            VList [image_input_tensor; VArray batch_img_array]];
       '(tf_box_encodings, tf_scores) ← lift (unpack2 tf_output_values);
       mret (img_array, tf_box_encodings, tf_scores)).

(** Lines 198-215: the CoreML model is evaluated. *)
Definition evaluate_coreml (img_array : ndarray) : M (value * value) :=
  let mlmodel_path := coreml_model_file in
  chw ← lift (np_transpose img_array [2; 0; 1]);
  img_array_coreml ← lift (new_axes 2 3 chw);
  mlmodel ← extern "coremltools.models.MLModel" [VStr mlmodel_path];
  let coreml_input_name := coreml_name tf_input_name in
  let coreml_output_names := coreml_output_names tf_output_names in
  let coreml_input := VDict [(coreml_input_name, VArray img_array_coreml)] in
  coreml_outputs_dict ← extern "MLModel.predict" [mlmodel; coreml_input; VBool true];
  coreml_outputs ←
    mapM (fun out_name => lift (getitem coreml_outputs_dict out_name))
         coreml_output_names;
  lift (unpack2 (VList coreml_outputs)).

(** Lines 231-234 on the values the two runtimes returned. *)
Definition compare_outputs (coreml_box_encodings coreml_scores
    tf_box_encodings tf_scores : value) : result (Q * Q) :=
  cb ← as_array coreml_box_encodings;
  tb ← as_array tf_box_encodings;
  rel_error_box ← rel_error cb tb;
  cs ← as_array coreml_scores;
  ts ← as_array tf_scores;
  rel_error_score ← rel_error cs ts;
  mret (rel_error_box, rel_error_score).

(** The notebook, cell after cell. *)
Definition notebook : M (Q * Q) :=
  acquisition;;
  original_gdef ← load_graph;
  gdef ← prune_graph original_gdef;
  convert;;
  img ← load_image;
  '(img_array, tf_box_encodings, tf_scores) ← evaluate_tf img gdef;
  '(coreml_box_encodings, coreml_scores) ← evaluate_coreml img_array;
  '(rel_error_box, rel_error_score) ←
    lift (compare_outputs coreml_box_encodings coreml_scores
                          tf_box_encodings tf_scores);
  extern "print" [VStr "Max relative error on box encoding: %f"];;
  extern "print" [VStr "Max relative error on scores: %f"];;
  mret (rel_error_box, rel_error_score).

(** *** What a log says *)

Definition event_ok (ev : event) : Prop := ∃ v, ev.2 = Ok v.

Definition is_exit (ev : event) : Prop := fn ev.1 = "__exit__".

Definition calls_makedirs (ev : event) : Prop := fn ev.1 = "os.makedirs".

Definition ev_exists (b : bool) : event :=
  (Call "os.path.exists" [VStr example_dir], Ok (VBool b)).

Definition ev_makedirs (r : result value) : event :=
  (Call "os.makedirs" [VStr example_dir], r).

Definition ev_download (r : result value) : event :=
  (Call "urllib.urlretrieve" [VStr mobilenet_ssd_url; VStr mobilenet_ssd_fpath], r).

(** The library functions the notebook calls inside a [with] block. *)
Definition in_with_block : list string :=
  ["file.read"; "tf.import_graph_def"; "GraphDef.SerializeToString";
   "GFile.write"; "Graph.get_tensor_by_name"; "Session.run"].

(** The calls whose failure the specification lists: download, graph
    parsing, pruning, conversion, prediction. *)
Definition stage_calls : list string :=
  ["urllib.urlretrieve"; "GraphDef.ParseFromString";
   "strip_unused_lib.strip_unused"; "tfcoreml.convert"; "MLModel.predict"].

(** The exceptions the calls of a log raised, oldest first. *)
Definition failures (evs : list event) : list exc :=
  omap (fun ev : event => match ev.2 with Raise e => Some e | Ok _ => None end) evs.

(** The new part of the log of a run and its outcome fit together:
    either no library call failed, or a call failed, only context-manager
    exits followed it (and only if the call was made inside a [with]
    block), and the run raised the exception of the last call that
    failed. *)
Definition trace_ok {A} (evs : list event) (r : result A) : Prop :=
  Forall event_ok evs
  ∨ ∃ oks c e exits e',
      evs = oks ++ (c, Raise e) :: exits
      ∧ Forall event_ok oks ∧ Forall is_exit exits
      ∧ r = Raise e' ∧ last (failures ((c, Raise e) :: exits)) = Some e'
      ∧ (exits ≠ [] → fn c ∈ in_with_block).

(** Code that lets every failure of a library call through. *)
Definition uncaught {A} (m : M A) : Prop :=
  ∀ E w, ∃ evs, log (m E w).2 = log w ++ evs ∧ trace_ok evs (m E w).1.

(** Code that only calls functions of [in_with_block]. *)
Definition inside {A} (m : M A) : Prop :=
  ∀ E w, ∃ evs, log (m E w).2 = log w ++ evs
                ∧ Forall (fun ev => fn ev.1 ∈ in_with_block) evs.

(** *** With blocks and successful runs *)

(** The functions whose result a [with] statement enters. *)
Definition context_managers : list string :=
  ["open"; "Graph.as_default"; "gfile.GFile"; "tf.Session"].

(** A context manager was entered: the call came back. *)
Definition entered (ev : event) : bool :=
  bool_decide (fn ev.1 ∈ context_managers)
  && match ev.2 with Ok _ => true | Raise _ => false end.

Definition exited (ev : event) : bool := bool_decide (fn ev.1 = "__exit__").

Definition tally (p : event → bool) (evs : list event) : nat :=
  length (List.filter p evs).

(** Code that leaves every context manager it enters. *)
Definition balanced {A} (m : M A) : Prop :=
  ∀ E w, ∃ evs, log (m E w).2 = log w ++ evs
                ∧ tally entered evs = tally exited evs.

(** Neither a context manager nor an exit. *)
Definition plain (f : string) : Prop :=
  (f ∉ context_managers) ∧ (f ≠ "__exit__").

#[global] Instance event_ok_dec (ev : event) : Decision (event_ok ev).
Proof.
  destruct ev as [c [v|e]]; [left; by exists v | right; by intros [v Hv]].
Defined.

(** The library calls of the cells in the order of the source; the
    directory is created only when it is not [present]. *)
Definition calls_of_a_successful_run (present : bool) : list string :=
  ["os.path.exists"] ++ (if present then [] else ["os.makedirs"]) ++
  ["urllib.urlretrieve"; "zipfile.ZipFile"; "ZipFile.extractall"; "ZipFile.close";
   "open"; "file.read"; "__exit__";
   "tf.reset_default_graph"; "tf.GraphDef"; "GraphDef.ParseFromString"; "tf.Graph";
   "Graph.as_default"; "tf.import_graph_def"; "__exit__";
   "strip_unused_lib.strip_unused";
   "gfile.GFile"; "GraphDef.SerializeToString"; "GFile.write"; "__exit__";
   "tfcoreml.convert";
   "requests.get"; "BytesIO"; "PIL.Image.open"; "np.asarray"; "imshow";
   "Image.resize"; "np.array"; "tf.reset_default_graph"; "tf.import_graph_def";
   "tf.Session"; "Graph.get_tensor_by_name"; "Graph.get_tensor_by_name";
   "Graph.get_tensor_by_name"; "Session.run"; "__exit__";
   "coremltools.models.MLModel"; "MLModel.predict";
   "print"; "print"].

(** *** Concrete inputs *)

Definition demo_array (s : list nat) : ndarray :=
  {| shape := s; data := (fun k => inject_Z (Z.of_nat k)) <$> seq 0 (size_of s) |}.

(** An environment in which the call named [failing] raises and every
    other call succeeds; the runtimes answer with small arrays in the
    layouts of the two formats. *)
Definition demo_env (failing : option string) : env := fun c w =>
  if decide (Some (fn c) = failing) then (Raise (LibraryError (fn c)), fs w)
  else if decide (fn c = "np.array") then (Ok (VArray (demo_array [2; 2; 3])), fs w)
  else if decide (fn c = "Session.run") then
    (Ok (VList [VArray (demo_array [1; 2; 4]); VArray (demo_array [1; 2; 3])]), fs w)
  else if decide (fn c = "MLModel.predict") then
    (Ok (VDict [("concat__0", VArray (demo_array [1; 1; 4; 1; 2]));
                ("concat_1__0", VArray (demo_array [1; 1; 3; 1; 2]))]), fs w)
  else (Ok VNone, fs w).

Definition array_a : ndarray := NdArray [2; 2] [1; 5; 1 # 2; -3]%Q.
Definition array_b : ndarray := NdArray [2; 2] [3; 2; 1 # 4; -1]%Q.

(** Two arrays with no element above 1. *)
Definition array_s : ndarray := NdArray [2; 2] [-3; 1 # 2; 1; 0]%Q.
Definition array_t : ndarray := NdArray [2; 2] [-1; 1 # 4; -2; 1]%Q.

(** Two arrays that are equal element by element, written differently. *)
Definition array_p : ndarray := NdArray [3] [0; 1 # 2; 7]%Q.
Definition array_q : ndarray := NdArray [3] [0; 2 # 4; 14 # 2]%Q.

Definition fresh_world : world := {| fs := ∅; log := [] |}.

Definition demo_graph : list node :=
  [ Node "image" (Operation "Placeholder") [];
    Node "Preprocessor/sub" (Operation "Sub") ["image"; "Preprocessor/mean"];
    Node "Preprocessor/mean" (Operation "Const") [];
    Node "weights" (Operation "Const") [];
    Node "conv" (Operation "Conv2D") ["Preprocessor/sub"; "weights"];
    Node "concat" (Operation "ConcatV2") ["conv"];
    Node "concat_1" (Operation "ConcatV2") ["conv"];
    Node "Postprocessor/nms" (Operation "NonMaxSuppression") ["concat"; "concat_1"] ].

(** * Facts *)

Set Warnings "-clear-no-such-hyp".

(** ** Multi-indices and flat offsets *)

Lemma length_indices s : length (indices s) = size_of s.
Proof.
  induction s as [|d s IH]; [done|]. simpl.
  assert (H : forall a, length (seq a d ≫= (fun i => cons i <$> indices s)) = d * size_of s).
  { induction d as [|d IHd]; intros a; [done|]. simpl.
    rewrite length_app, length_fmap, IH, IHd. lia. }
  apply H.
Qed.

Lemma indices_in_range s idx : idx ∈ indices s ↔ in_range s idx.
Proof.
  unfold in_range. revert idx. induction s as [|d s IH]; intros idx; simpl.
  - rewrite list_elem_of_singleton. split; [intros ->; constructor | by inversion 1].
  - rewrite list_elem_of_bind. split.
    + intros (i & Hin & Hi). apply list_elem_of_fmap in Hin as (idx' & -> & Hin).
      apply elem_of_seq in Hi. constructor; [lia | by apply IH].
    + inversion 1 as [|i ? idx' ? Hi Hrest]; subst. exists i. split.
      * apply list_elem_of_fmap. exists idx'. split; [done | by apply IH].
      * apply elem_of_seq. lia.
Qed.

Lemma ravel_indices s : ravel s <$> indices s = seq 0 (size_of s).
Proof.
  induction s as [|d s IH]; [done|]. simpl.
  assert (H : forall a, ravel (d :: s) <$> (seq a d ≫= (fun i => cons i <$> indices s))
                   = seq (a * size_of s) (d * size_of s)).
  { clear -IH. induction d as [|d IHd]; intros a; [done|]. simpl.
    rewrite fmap_app, IHd, seq_app. f_equal; [|f_equal; lia].
    rewrite <- list_fmap_compose.
    transitivity ((fun k => a * size_of s + k) <$> (ravel s <$> indices s)).
    { by rewrite <- list_fmap_compose. }
    rewrite IH. by rewrite fmap_add_seq, Nat.add_0_r. }
  apply H.
Qed.

Lemma ravel_lt s idx : in_range s idx → ravel s idx < size_of s.
Proof.
  unfold in_range. induction 1 as [|i d idx s Hi _ IH]; simpl; [lia|].
  fold (size_of s). nia.
Qed.

Lemma lookup_bind_blocks {A} (f : nat → list A) (P : nat) :
  (∀ j, length (f j) = P) →
  ∀ d a i r, i < d → r < P → (seq a d ≫= f) !! (i * P + r) = f (a + i) !! r.
Proof.
  intros Hlen. induction d as [|d IH]; intros a i r Hi Hr; [lia|].
  simpl. destruct i as [|i].
  - rewrite lookup_app_l by (rewrite Hlen; lia). by rewrite Nat.add_0_r.
  - rewrite lookup_app_r by (rewrite Hlen; lia). rewrite Hlen.
    replace (S i * P + r - P) with (i * P + r) by lia.
    rewrite IH by lia. by replace (a + S i) with (S a + i) by lia.
Qed.

Lemma lookup_indices_ravel s idx :
  in_range s idx → indices s !! ravel s idx = Some idx.
Proof.
  intros H. unfold in_range in H.
  induction H as [|i d idx s Hi H IH]; [done|]. simpl.
  rewrite (lookup_bind_blocks _ (size_of s)); [| |done|by apply ravel_lt].
  - by rewrite list_lookup_fmap, IH.
  - intros j. by rewrite length_fmap, length_indices.
Qed.

Lemma nth_fmap_indices (F : list nat → Q) s idx :
  in_range s idx → nth (ravel s idx) (F <$> indices s) 0%Q = F idx.
Proof.
  intros H. by rewrite nth_lookup, list_lookup_fmap, lookup_indices_ravel.
Qed.

Lemma nth_seq_data (l : list Q) : (fun k => nth k l 0%Q) <$> seq 0 (length l) = l.
Proof.
  apply list_eq. intros i. rewrite list_lookup_fmap.
  destruct (decide (i < length l)) as [Hi|Hi].
  - rewrite lookup_seq_lt by done. simpl.
    destruct (lookup_lt_is_Some_2 l i Hi) as [q Hq].
    by rewrite nth_lookup, Hq.
  - rewrite lookup_seq_ge by lia. simpl. symmetry. apply lookup_ge_None. lia.
Qed.

Lemma items_data a : wf a → item a <$> indices (shape a) = data a.
Proof.
  intros Hwf. unfold item.
  change (fun idx => nth (ravel (shape a) idx) (data a) 0%Q)
    with ((fun k => nth k (data a) 0%Q) ∘ ravel (shape a)).
  rewrite list_fmap_compose, ravel_indices, <- Hwf. apply nth_seq_data.
Qed.

Lemma zip_with_positions (f : Q → Q → Q) x y :
  wf x → wf y → shape x = shape y →
  (fun i => f (item x i) (item y i)) <$> positions x = zip_with f (data x) (data y).
Proof.
  intros Hx Hy Hs. unfold positions.
  transitivity (zip_with f (item x <$> indices (shape x))
                           (item y <$> indices (shape x))).
  - by rewrite zip_with_fmap_l, zip_with_fmap_r, zip_with_diag.
  - rewrite (items_data x Hx), Hs, (items_data y Hy). done.
Qed.

Lemma positions_nil a : wf a → positions a = [] ↔ data a = [].
Proof.
  intros Hwf. unfold positions.
  rewrite <- !length_zero_iff_nil, length_indices. by rewrite Hwf.
Qed.

(** ** Element-wise operations on arrays of one shape *)

Lemma source_index_id s idx : in_range s idx → source_index s idx = idx.
Proof.
  unfold in_range, source_index. intros H.
  rewrite (Forall2_length _ _ _ H), Nat.sub_diag, drop_0.
  induction H as [|i d idx s Hi H IH]; [done|]. simpl.
  rewrite IH. case_decide; [f_equal; lia | done].
Qed.

Lemma broadcast_rev_same r : broadcast_rev r r = Some r.
Proof.
  induction r as [|d r IH]; [done|]. simpl.
  rewrite decide_True by done. by rewrite IH.
Qed.

Lemma broadcast_shapes_same s : broadcast_shapes s s = Some s.
Proof.
  unfold broadcast_shapes. rewrite broadcast_rev_same. simpl.
  by rewrite reverse_involutive.
Qed.

Lemma broadcast_to_same a : wf a → broadcast_to a (shape a) = a.
Proof.
  intros Hwf. destruct a as [s d]. unfold broadcast_to. simpl. f_equal.
  transitivity (item (NdArray s d) <$> indices s); [|apply (items_data _ Hwf)].
  apply list_fmap_ext. intros i idx Hin.
  rewrite source_index_id; [done|].
  apply indices_in_range, list_elem_of_lookup. eauto.
Qed.

Lemma np_binary_same_shape f x y :
  wf x → wf y → shape x = shape y →
  np_binary f x y = Ok {| shape := shape x; data := zip_with f (data x) (data y) |}.
Proof.
  intros Hx Hy Hs. unfold np_binary. rewrite <- Hs, broadcast_shapes_same.
  rewrite (broadcast_to_same x Hx), Hs, (broadcast_to_same y Hy). done.
Qed.

Lemma squeeze_wf a : wf a → wf (squeeze a).
Proof.
  unfold wf, squeeze. simpl. intros ->.
  induction (shape a) as [|d s IH]; [done|].
  rewrite filter_cons. case_decide as Hd; simpl; [lia|].
  assert (d = 1) as -> by (destruct (decide (d = 1)); [done|contradiction]).
  fold (size_of s). lia.
Qed.

Lemma np_transpose_wf a axes t : np_transpose a axes = Ok t → wf t.
Proof.
  unfold np_transpose. case_decide; [|done]. intros [= <-].
  unfold wf. simpl. by rewrite length_fmap, length_indices.
Qed.

Lemma squeeze_shape_batch N C : N ≠ 1 → C ≠ 1 →
  filter (fun d => d ≠ 1) [1; N; C] = [N; C].
Proof.
  intros HN HC. rewrite filter_cons_False by (intros H; by apply H).
  rewrite filter_cons_True by done. rewrite filter_cons_True by done. done.
Qed.

(** ** The element formula *)

Lemma ratio_sym a b : (ratio a b == ratio b a)%Q.
Proof.
  unfold ratio. rewrite (Qabs_Qminus a b). rewrite (Q.max_comm a b). reflexivity.
Qed.

Lemma ratio_nonneg a b : (0 <= ratio a b)%Q.
Proof.
  unfold ratio. apply Qle_shift_div_l.
  - apply Qlt_le_trans with 1%Q; [done | apply Q.le_max_r].
  - rewrite Qmult_0_l. apply Qabs_nonneg.
Qed.

Lemma ratio_equal a b : (a == b)%Q → (ratio a b == 0)%Q.
Proof.
  intros Hab. unfold ratio. rewrite Hab.
  assert (E : (b - b == 0)%Q) by ring. rewrite E. simpl.
  unfold Qdiv. apply Qmult_0_l.
Qed.

Lemma ratio_small a b : (a <= 1)%Q → (b <= 1)%Q →
  (Qmax (Qmax a b) 1 == 1)%Q ∧ (ratio a b == Qabs (a - b))%Q.
Proof.
  intros Ha Hb.
  assert (H : (Qmax (Qmax a b) 1 == 1)%Q).
  { apply Q.max_r. by apply Q.max_lub. }
  split; [done|]. unfold ratio. rewrite H. unfold Qdiv.
  change (/ 1)%Q with 1%Q. apply Qmult_1_r.
Qed.

Lemma zip_with_fused (xd yd : list Q) :
  zip_with Qdiv (Qabs <$> zip_with Qminus xd yd)
                ((fun q => Qmax q 1) <$> zip_with Qmax xd yd)
  = zip_with ratio xd yd.
Proof.
  revert yd. induction xd as [|a xd IH]; intros [|b yd]; simpl; try done.
  by rewrite IH.
Qed.

Lemma zip_with_ratio_sym xd yd :
  Forall2 Qeq (zip_with ratio xd yd) (zip_with ratio yd xd).
Proof.
  revert yd. induction xd as [|a xd IH]; intros [|b yd]; simpl; try constructor.
  - apply ratio_sym.
  - apply IH.
Qed.

Lemma zip_with_ratio_nonneg xd yd :
  Forall (fun v => (0 <= v)%Q) (zip_with ratio xd yd).
Proof.
  revert yd. induction xd as [|a xd IH]; intros [|b yd]; simpl; try constructor.
  - apply ratio_nonneg.
  - apply IH.
Qed.

Lemma zip_with_ratio_equal xd yd :
  Forall2 Qeq xd yd → Forall (fun v => (v == 0)%Q) (zip_with ratio xd yd).
Proof.
  induction 1 as [|a b xd yd Hab _ IH]; simpl; constructor; [|done].
  by apply ratio_equal.
Qed.

Lemma zip_with_ratio_small xd yd :
  Forall (fun v => (v <= 1)%Q) xd → Forall (fun v => (v <= 1)%Q) yd →
  Forall2 Qeq (zip_with ratio xd yd) (zip_with (fun a b => Qabs (a - b)) xd yd).
Proof.
  intros Hx. revert yd. induction Hx as [|a xd Ha _ IH]; intros yd Hy; simpl.
  - constructor.
  - destruct Hy as [|b yd Hb Hy]; constructor.
    + by apply ratio_small.
    + by apply IH.
Qed.

Lemma zip_with_denominator_small xd yd :
  Forall (fun v => (v <= 1)%Q) xd → Forall (fun v => (v <= 1)%Q) yd →
  Forall (fun d => (d == 1)%Q) ((fun q => Qmax q 1) <$> zip_with Qmax xd yd).
Proof.
  intros Hx. revert yd. induction Hx as [|a xd Ha _ IH]; intros yd Hy; simpl.
  - constructor.
  - destruct Hy as [|b yd Hb Hy]; constructor.
    + by apply ratio_small.
    + by apply IH.
Qed.

(** ** The maximum *)

Lemma Qmax_cases (p q : Q) : Qmax p q = p ∨ Qmax p q = q.
Proof. unfold Qmax, GenericMinMax.gmax. destruct (p ?= q)%Q; auto. Qed.

Lemma foldl_Qmax_is_maximum q qs : is_maximum (foldl Qmax q qs) (q :: qs).
Proof.
  unfold is_maximum. revert q. induction qs as [|q' qs IH]; intros q; simpl.
  - split; [apply list_elem_of_here | repeat constructor; apply Qle_refl].
  - destruct (IH (Qmax q q')) as [Hin Hall]. split.
    + apply elem_of_cons in Hin as [->|Hin].
      * destruct (Qmax_cases q q') as [->| ->];
          [apply list_elem_of_here | apply list_elem_of_further, list_elem_of_here].
      * by do 2 apply list_elem_of_further.
    + inversion Hall as [|? ? Hm Hrest]; subst.
      constructor; [|constructor; [|done]].
      * eapply Qle_trans; [apply Q.le_max_l | exact Hm].
      * eapply Qle_trans; [apply Q.le_max_r | exact Hm].
Qed.

Lemma foldl_Qmax_Qeq l1 l2 : Forall2 Qeq l1 l2 →
  ∀ q1 q2, (q1 == q2)%Q → (foldl Qmax q1 l1 == foldl Qmax q2 l2)%Q.
Proof.
  induction 1 as [|a b l1 l2 Hab _ IH]; intros q1 q2 Hq; simpl; [done|].
  apply IH. by rewrite Hq, Hab.
Qed.

Lemma np_max_Qeq a b :
  Forall2 Qeq (data a) (data b) → same_result (np_max a) (np_max b).
Proof.
  unfold np_max. destruct 1 as [|p q l1 l2 Hpq Hl]; simpl; [done|].
  by apply foldl_Qmax_Qeq.
Qed.

Lemma np_max_empty a : data a = [] ↔ np_max a = Raise ValueError.
Proof. unfold np_max. destruct (data a); split; done. Qed.

(** ** [max_relative_error] on arrays of one shape *)

Lemma max_relative_error_unfold x y :
  wf x → wf y → shape x = shape y →
  max_relative_error x y
  = np_max {| shape := shape x; data := zip_with ratio (data x) (data y) |}.
Proof.
  intros Hx Hy Hs.
  assert (Hlen : length (data x) = length (data y)).
  { unfold wf in *. congruence. }
  unfold max_relative_error, np_maximum, np_subtract, np_divide.
  rewrite !(np_binary_same_shape _ x y) by done. simpl.
  rewrite np_binary_same_shape; simpl; try done.
  - by rewrite zip_with_fused.
  - unfold wf. simpl. rewrite length_fmap, length_zip_with. unfold wf in Hx. lia.
  - unfold wf. simpl. rewrite length_fmap, length_zip_with. unfold wf in Hx. lia.
Qed.

Lemma zip_with_ratio_nil x y :
  wf x → wf y → shape x = shape y →
  zip_with ratio (data x) (data y) = [] → data x = [].
Proof.
  intros Hx Hy Hs Hz. apply (f_equal length) in Hz.
  rewrite length_zip_with in Hz. unfold wf in *. rewrite Hs in Hx.
  apply length_zero_iff_nil. simpl in Hz. lia.
Qed.

Lemma max_relative_error_returns x y :
  wf x → wf y → shape x = shape y → data x ≠ [] →
  ∃ r, max_relative_error x y = Ok r
       ∧ is_maximum r (zip_with ratio (data x) (data y)).
Proof.
  intros Hx Hy Hs Hne. rewrite max_relative_error_unfold by done.
  unfold np_max. cbn [data].
  destruct (zip_with ratio (data x) (data y)) as [|q qs] eqn:Hz.
  - exfalso. apply Hne. by eapply zip_with_ratio_nil.
  - exists (foldl Qmax q qs). split; [done|]. apply foldl_Qmax_is_maximum.
Qed.

Lemma max_relative_error_empty :
  max_relative_error empty_array empty_array = Raise ValueError.
Proof. reflexivity. Qed.

Lemma max_relative_error_swap a b :
  wf a → wf b → shape a = shape b →
  same_result (max_relative_error a b) (max_relative_error b a).
Proof.
  intros Ha Hb Hs. rewrite !max_relative_error_unfold by done.
  apply np_max_Qeq. simpl. apply zip_with_ratio_sym.
Qed.

(** ** Properties of [max_relative_error] *)

(** [is_maximum] over the positions, said with the positions themselves. *)
Lemma is_maximum_positions (f : list nat → Q) a m :
  is_maximum m (f <$> positions a) →
  (∃ i, in_range (shape a) i ∧ m = f i)
  ∧ (∀ i, in_range (shape a) i → (f i <= m)%Q).
Proof.
  intros [Hin Hall]. split.
  - apply list_elem_of_fmap in Hin as (i & -> & Hi).
    exists i. split; [by apply indices_in_range|done].
  - intros i Hi. rewrite Forall_forall in Hall. apply Hall.
    apply list_elem_of_fmap. exists i. split; [done|]. by apply indices_in_range.
Qed.



Example max_relative_error_demo :
  max_relative_error array_a array_b = Ok (2 # 1)%Q
  ∧ relative_error_at array_a array_b [1; 1] = (2 # 1)%Q.
Proof. by vm_compute. Qed.











Example max_relative_error_small_demo :
  max_relative_error array_s array_t = Ok (3 # 1)%Q
  ∧ abs_difference_at array_s array_t [1; 0] = (3 # 1)%Q.
Proof. by vm_compute. Qed.


(** C5: each TensorFlow output, of shape [(1, N, C)], is squeezed and its
    two remaining axes are swapped before it is passed to
    [max_relative_error] together with the squeezed CoreML output, of
    shape [(C, N)]: the two arguments have the same shape and position
    [(c, n)] compares the CoreML element with element [(0, n, c)] of the
    TensorFlow output. *)
Theorem rel_error_compares_corresponding_elements coreml_out tf_out N C :
  wf coreml_out → wf tf_out →
  shape tf_out = [1; N; C] → N ≠ 1 → C ≠ 1 →
  shape (squeeze coreml_out) = [C; N] →
  ∃ t, np_transpose (squeeze tf_out) [1; 0] = Ok t
       ∧ rel_error coreml_out tf_out = max_relative_error (squeeze coreml_out) t
       ∧ wf (squeeze coreml_out) ∧ wf t
       ∧ shape t = shape (squeeze coreml_out)
       ∧ ∀ c n, c < C → n < N →
           item t [c; n] = item tf_out [0; n; c]
           ∧ relative_error_at (squeeze coreml_out) t [c; n]
             = ratio (item (squeeze coreml_out) [c; n]) (item tf_out [0; n; c]).
Proof.
  intros Hc Ht Hs HN HC Hsc.
  assert (Hsq : shape (squeeze tf_out) = [N; C]).
  { unfold squeeze. simpl. rewrite Hs. by apply squeeze_shape_batch. }
  destruct (np_transpose (squeeze tf_out) [1; 0]) as [t|e] eqn:Htr.
  2:{ exfalso. unfold np_transpose in Htr. rewrite Hsq in Htr.
      rewrite decide_True in Htr; [done|].
      split; [done|]. split; [|repeat constructor].
      apply NoDup_cons. split; [set_solver|]. apply NoDup_singleton. }
  exists t. split; [done|]. split; [by unfold rel_error; rewrite Htr|].
  split; [by apply squeeze_wf|]. split; [by eapply np_transpose_wf|].
  assert (Hsh : shape t = [C; N]
                ∧ data t = (fun idx => item (squeeze tf_out)
                                         (transposed_index [1; 0] idx))
                           <$> indices [C; N]).
  { unfold np_transpose in Htr. rewrite Hsq in Htr.
    case_decide; [|done]. by injection Htr as <-. }
  destruct Hsh as [Hsh Hd]. split; [congruence|].
  intros c n Hlt_c Hlt_n.
  assert (Hitem : item t [c; n] = item tf_out [0; n; c]).
  { unfold item at 1. rewrite Hsh, Hd.
    rewrite nth_fmap_indices by (repeat constructor; done).
    unfold item. rewrite Hsq, Hs. simpl. f_equal; lia. }
  split; [done|]. unfold relative_error_at. by rewrite Hitem.
Qed.

Lemma rel_error_compares_corresponding_elements_witness :
  let coreml_out := demo_array [1; 1; 4; 1; 2] in
  let tf_out := demo_array [1; 2; 4] in
  ∃ t, np_transpose (squeeze tf_out) [1; 0] = Ok t
       ∧ rel_error coreml_out tf_out = max_relative_error (squeeze coreml_out) t
       ∧ wf (squeeze coreml_out) ∧ wf t
       ∧ shape t = shape (squeeze coreml_out)
       ∧ ∀ c n, c < 4 → n < 2 →
           item t [c; n] = item tf_out [0; n; c]
           ∧ relative_error_at (squeeze coreml_out) t [c; n]
             = ratio (item (squeeze coreml_out) [c; n]) (item tf_out [0; n; c]).
Proof.
  apply (rel_error_compares_corresponding_elements
           (demo_array [1; 1; 4; 1; 2]) (demo_array [1; 2; 4]) 2 4);
    try reflexivity; lia.
Defined.

Example rel_error_demo :
  rel_error (demo_array [1; 1; 4; 1; 2]) (demo_array [1; 2; 4]) = Ok (3 # 4)%Q.
Proof. reflexivity. Qed.

(** ** Feature names *)

Lemma string_app_assoc (s1 s2 s3 : string) :
  (s1 +:+ s2) +:+ s3 = s1 +:+ (s2 +:+ s3).
Proof.
  induction s1 as [|a s1 IH]; [done|].
  change (String a ((s1 +:+ s2) +:+ s3) = String a (s1 +:+ (s2 +:+ s3))).
  by rewrite IH.
Qed.

Lemma str_replace_char c new s :
  str_replace (String c "") new s = replace_char c new s.
Proof.
  unfold str_replace. induction s as [|d s IH]; [done|].
  cbn [replace_from replace_char String.prefix String.length].
  destruct (ascii_dec c d) as [->|Hne].
  - rewrite decide_True by done.
    replace (String.prefix "" s) with true by (by destruct s).
    simpl. by rewrite IH.
  - rewrite decide_False by congruence. simpl. by rewrite IH.
Qed.

Lemma replace_char_app c new s1 s2 :
  replace_char c new (s1 +:+ s2) = replace_char c new s1 +:+ replace_char c new s2.
Proof.
  induction s1 as [|d s1 IH]; [done|]. simpl. rewrite IH.
  by rewrite string_app_assoc.
Qed.

Lemma coreml_name_feature_name s : coreml_name s = feature_name s.
Proof.
  unfold coreml_name. rewrite !str_replace_char.
  induction s as [|d s IH]; [done|].
  cbn [replace_char feature_name]. rewrite replace_char_app, IH. f_equal.
  unfold rename_char.
  destruct (decide (d = ":"%char)) as [->|Hc]; [done|].
  destruct (decide (d = "/"%char)) as [->|Hs]; [done|].
  rewrite decide_False by tauto. simpl. by rewrite decide_False.
Qed.

(** C9: the CoreML feature name of a TensorFlow tensor name is the name
    with every [':'] and every ['/'] replaced by ["__"]; the input name
    and each output name go through the same renaming. *)
Theorem coreml_names_replace_colon_and_slash (tf_name : string)
    (tf_names : list string) :
  coreml_name tf_name = feature_name tf_name
  ∧ coreml_output_names tf_names = feature_name <$> tf_names
  ∧ coreml_name tf_input_name = "Preprocessor__sub__0"
  ∧ coreml_output_names tf_output_names = ["concat__0"; "concat_1__0"].
Proof.
  split; [apply coreml_name_feature_name|]. split; [|done].
  unfold coreml_output_names. apply list_fmap_ext. intros _ s _.
  apply coreml_name_feature_name.
Qed.

Example str_replace_left_to_right : str_replace "aa" "X" "aaaaa" = "XXa".
Proof. reflexivity. Qed.

(** ** Graph pruning *)

Lemma traverse_least (next : string → list string) (S : gset string) :
  (∀ x y, x ∈ S → y ∈ next x → y ∈ S) →
  ∀ fuel queue visited,
    visited ⊆ S → (∀ x, x ∈ queue → x ∈ S) →
    traverse fuel next queue visited ⊆ S.
Proof.
  intros Hclosed. induction fuel as [|fuel IH]; intros queue V HV Hq; [done|].
  simpl. destruct queue as [|x queue]; [done|]. case_decide.
  - apply IH; [done|]. intros y Hy. apply Hq. by right.
  - assert (x ∈ S) by (apply Hq; by left). apply IH; [set_solver|].
    intros y [Hy|Hy]%elem_of_app; [apply Hq; by right | by eapply Hclosed].
Qed.

Section traversal.
Context (next : string → list string) (pot : gset string → nat).
Hypothesis pot_visit :
  ∀ x V, x ∉ V → length (next x) + pot ({[x]} ∪ V) ≤ pot V.

(** With fuel for everything left to explore, the traversal ends with a
    set that contains the queue and is closed under [next]. *)
Lemma traverse_closed fuel : ∀ queue visited,
  length queue + pot visited ≤ fuel →
  visited ⊆ traverse fuel next queue visited
  ∧ (∀ x, x ∈ queue → x ∈ traverse fuel next queue visited)
  ∧ (∀ x y, x ∈ traverse fuel next queue visited → x ∉ visited →
            y ∈ next x → y ∈ traverse fuel next queue visited).
Proof.
  induction fuel as [|fuel IH]; intros queue V Hfuel.
  - destruct queue; [|simpl in Hfuel; lia]. simpl.
    split; [done|]. split; [by inversion 1 | done].
  - simpl. destruct queue as [|x queue].
    { split; [done|]. split; [by inversion 1 | done]. }
    simpl in Hfuel. case_decide as Hx.
    + destruct (IH queue V) as (HV & Hq & Hc); [lia|].
      split; [done|]. split; [|done].
      intros y [->|Hy]%elem_of_cons; [by apply HV | by apply Hq].
    + pose proof (pot_visit x V Hx) as Hpot.
      destruct (IH (queue ++ next x) ({[x]} ∪ V)) as (HV & Hq & Hc).
      { rewrite length_app. lia. }
      split; [set_solver|]. split.
      * intros y [->|Hy]%elem_of_cons; [set_solver|].
        apply Hq, elem_of_app. by left.
      * intros z y Hz HzV Hy. destruct (decide (z = x)) as [->|Hne].
        -- apply Hq, elem_of_app. by right.
        -- apply (Hc z y); [done|set_solver|done].
Qed.
End traversal.

Lemma elem_of_inputs_of g x y :
  y ∈ inputs_of g x ↔ ∃ n, n ∈ g ∧ node_name n = x ∧ y ∈ node_input n.
Proof.
  unfold inputs_of. rewrite list_elem_of_bind. split.
  - intros (n & Hy & Hn). case_decide; [|by inversion Hy]. eauto.
  - intros (n & Hn & Hx & Hy). exists n. by rewrite decide_True.
Qed.

Lemma unexplored_visit g I x V :
  x ∉ V → length (predecessors g I x) + unexplored g ({[x]} ∪ V) ≤ unexplored g V.
Proof.
  intros Hx. unfold predecessors.
  assert (H : length (inputs_of g x) + unexplored g ({[x]} ∪ V) ≤ unexplored g V).
  { unfold unexplored, inputs_of. induction g as [|n g IH]; [done|].
    csimpl. rewrite length_app.
    destruct (decide (node_name n = x)) as [Hn|Hn].
    - rewrite decide_True by set_solver. rewrite decide_False by congruence. lia.
    - simpl. destruct (decide (node_name n ∈ V)).
      + rewrite decide_True by set_solver. lia.
      + rewrite decide_False by set_solver. lia. }
  case_decide; simpl; lia.
Qed.

Lemma reachable_names_closed g I O :
  (∀ x, x ∈ O → x ∈ reachable_names g I O)
  ∧ (∀ x y, x ∈ reachable_names g I O → y ∈ predecessors g I x →
            y ∈ reachable_names g I O).
Proof.
  destruct (traverse_closed (predecessors g I) (unexplored g)
              (unexplored_visit g I) (length O + unexplored g ∅) O ∅)
    as (_ & Hq & Hc); [done|].
  split; [done|]. intros x y Hx Hy. by apply (Hc x y).
Qed.

Lemma reachable_names_least g I O (S : gset string) :
  (∀ x, x ∈ O → x ∈ S) →
  (∀ x y, x ∈ S → y ∈ predecessors g I x → y ∈ S) →
  reachable_names g I O ⊆ S.
Proof. intros HO Hc. by apply traverse_least. Qed.

Lemma rewrite_inputs_name ph I g :
  node_name <$> rewrite_inputs ph I g = node_name <$> g.
Proof.
  unfold rewrite_inputs. rewrite <- list_fmap_compose.
  apply list_fmap_ext. intros _ n _. simpl. by case_decide.
Qed.

Lemma rewrite_inputs_idemp ph I g :
  rewrite_inputs ph I (rewrite_inputs ph I g) = rewrite_inputs ph I g.
Proof.
  unfold rewrite_inputs. rewrite <- list_fmap_compose.
  apply list_fmap_ext. intros _ n _. simpl.
  destruct (decide (node_name n ∈ I)) as [Hn|Hn]; simpl.
  - by rewrite decide_True.
  - by rewrite decide_False.
Qed.

Lemma filter_all {A} (P : A → Prop) `{∀ x, Decision (P x)} (l : list A) :
  Forall P l → filter P l = l.
Proof.
  induction 1 as [|x l Hx _ IH]; [done|].
  by rewrite filter_cons_True, IH.
Qed.

(** Every name kept by a first pruning is reached again in its result. *)
Lemma strip_unused_keeps_reachable g I O ph :
  reachable_names g I O ⊆ reachable_names (strip_unused g I O ph) I O.
Proof.
  set (K := reachable_names g I O).
  set (K1 := reachable_names (strip_unused g I O ph) I O).
  destruct (reachable_names_closed g I O) as [HO Hc].
  destruct (reachable_names_closed (strip_unused g I O ph) I O) as [HO1 Hc1].
  fold K in HO, Hc. fold K1 in HO1, Hc1.
  assert (Hsub : K ⊆ K ∩ K1); [|set_solver].
  apply reachable_names_least.
  - intros x Hx. apply elem_of_intersection. auto.
  - intros x y [HxK HxK1]%elem_of_intersection Hy.
    apply elem_of_intersection. split; [by apply (Hc x y)|].
    apply (Hc1 x y); [done|].
    unfold predecessors in *. case_decide as HxI; [done|].
    apply elem_of_inputs_of in Hy as (n & Hn & Hname & Hy).
    apply elem_of_inputs_of. exists n. split; [|done].
    unfold strip_unused, rewrite_inputs. apply list_elem_of_fmap.
    exists n. split.
    + rewrite decide_False; [done|]. by rewrite Hname.
    + apply list_elem_of_filter. split; [|done]. fold K. by rewrite Hname.
Qed.

(** C6: pruning is idempotent: pruning the result of a pruning again,
    with the same input and output node names, gives the same graph, and
    so the same node set. *)
Theorem strip_unused_idempotent g I O ph :
  strip_unused (strip_unused g I O ph) I O ph = strip_unused g I O ph
  ∧ node_set (strip_unused (strip_unused g I O ph) I O ph)
    = node_set (strip_unused g I O ph).
Proof.
  assert (H : strip_unused (strip_unused g I O ph) I O ph = strip_unused g I O ph);
    [|by rewrite H].
  unfold strip_unused at 1.
  rewrite filter_all; [apply rewrite_inputs_idemp|].
  apply Forall_forall. intros n Hn.
  apply strip_unused_keeps_reachable.
  assert (Hname : node_name n ∈ node_name <$> strip_unused g I O ph).
  { apply list_elem_of_fmap. eauto. }
  unfold strip_unused in Hname. rewrite rewrite_inputs_name in Hname.
  apply list_elem_of_fmap in Hname as (m & -> & Hm).
  by apply list_elem_of_filter in Hm as [Hm _].
Qed.

Example strip_unused_demo :
  node_name <$> strip_unused demo_graph input_node_names output_node_names 1
  = ["Preprocessor/sub"; "weights"; "conv"; "concat"; "concat_1"].
Proof. by vm_compute. Qed.

(** ** The workflow *)

Lemma uncaught_ret {A} (a : A) : uncaught (mret a).
Proof. intros E w. exists []. simpl. rewrite app_nil_r. split; [done|]. by left. Qed.

Lemma uncaught_lift {A} (r : result A) : uncaught (lift r).
Proof. intros E w. exists []. simpl. rewrite app_nil_r. split; [done|]. by left. Qed.

Lemma trace_ok_single {A} c (r : result value) (r' : result A) :
  (∀ e, r = Raise e → r' = Raise e) → trace_ok [(c, r)] r'.
Proof.
  intros Hr. destruct r as [v|e].
  - left. repeat constructor. by exists v.
  - right. exists [], c, e, [], e. split; [done|]. split; [constructor|].
    split; [constructor|]. split; [by apply Hr | done].
Qed.

Lemma uncaught_extern f xs : uncaught (extern f xs).
Proof.
  intros E w. unfold extern. destruct (E (Call f xs) w) as [r paths]. simpl.
  eexists. split; [done|]. by apply trace_ok_single.
Qed.

Lemma uncaught_os_path_exists path : uncaught (os_path_exists path).
Proof.
  intros E w. simpl. eexists. split; [done|]. left. repeat constructor. by eexists.
Qed.

Lemma uncaught_os_makedirs path : uncaught (os_makedirs path).
Proof.
  intros E w. unfold os_makedirs. case_decide.
  - simpl. eexists. split; [done|]. apply trace_ok_single. congruence.
  - destruct (E _ w) as [[v|e] paths]; simpl.
    + eexists. split; [done|]. apply trace_ok_single. congruence.
    + eexists. split; [done|]. apply trace_ok_single. congruence.
Qed.

Lemma uncaught_bind {A B} (m : M A) (k : A → M B) :
  uncaught m → (∀ a, uncaught (k a)) → uncaught (m ≫= k).
Proof.
  intros Hm Hk E w. destruct (Hm E w) as (evs1 & Hlog1 & Ht1).
  unfold mbind, M_bind. destruct (m E w) as [[a|e] w1]; simpl in *.
  - destruct (Hk a E w1) as (evs2 & Hlog2 & Ht2).
    exists (evs1 ++ evs2). rewrite Hlog2, Hlog1, app_assoc. split; [done|].
    destruct Ht1 as [Hok1|(oks & c & e & exits & e' & _ & _ & _ & [=] & _)].
    destruct Ht2
      as [Hok2|(oks & c & e & exits & e' & -> & Hoks & Hex & Hr & He & Hin)].
    + left. by apply Forall_app.
    + right. exists (evs1 ++ oks), c, e, exits, e'.
      split; [by rewrite (assoc_L (++))|]. split; [by apply Forall_app|]. done.
  - exists evs1. split; [done|].
    destruct Ht1
      as [Hok1|(oks & c & e0 & exits & e' & -> & Hoks & Hex & Hr & He & Hin)].
    + by left.
    + injection Hr as ->. right. by exists oks, c, e0, exits, e'.
Qed.

Lemma uncaught_mapM {A B} (f : A → M B) (l : list A) :
  (∀ a, uncaught (f a)) → uncaught (mapM f l).
Proof.
  intros Hf. induction l as [|a l IH]; [apply uncaught_ret|].
  simpl. apply uncaught_bind; [done|]. intros b.
  apply uncaught_bind; [done|]. intros bs. apply uncaught_ret.
Qed.

Lemma inside_ret {A} (a : A) : inside (mret a).
Proof. intros E w. exists []. simpl. by rewrite app_nil_r. Qed.

Lemma inside_lift {A} (r : result A) : inside (lift r).
Proof. intros E w. exists []. simpl. by rewrite app_nil_r. Qed.

Lemma inside_extern f xs : f ∈ in_with_block → inside (extern f xs).
Proof.
  intros Hf E w. unfold extern. destruct (E (Call f xs) w) as [r paths]. simpl.
  exists [(Call f xs, r)]. split; [done|]. constructor; [done|constructor].
Qed.

Lemma inside_bind {A B} (m : M A) (k : A → M B) :
  inside m → (∀ a, inside (k a)) → inside (m ≫= k).
Proof.
  intros Hm Hk E w. destruct (Hm E w) as (evs1 & Hlog1 & Hin1).
  unfold mbind, M_bind. destruct (m E w) as [[a|e] w1]; simpl in *.
  - destruct (Hk a E w1) as (evs2 & Hlog2 & Hin2).
    exists (evs1 ++ evs2). rewrite Hlog2, Hlog1, app_assoc. split; [done|].
    by apply Forall_app.
  - by exists evs1.
Qed.

Lemma inside_mapM {A B} (f : A → M B) (l : list A) :
  (∀ a, inside (f a)) → inside (mapM f l).
Proof.
  intros Hf. induction l as [|a l IH]; [apply inside_ret|].
  simpl. apply inside_bind; [done|]. intros b.
  apply inside_bind; [done|]. intros bs. apply inside_ret.
Qed.

Lemma failures_snoc evs c r :
  failures (evs ++ [(c, r)])
  = failures evs ++ match r with Raise e => [e] | Ok _ => [] end.
Proof. unfold failures. rewrite omap_app. by destruct r. Qed.

Lemma failures_app evs1 evs2 :
  failures (evs1 ++ evs2) = failures evs1 ++ failures evs2.
Proof. apply omap_app. Qed.

Lemma failures_raise c e evs : failures ((c, Raise e) :: evs) = e :: failures evs.
Proof. reflexivity. Qed.

Lemma failures_ok evs : Forall event_ok evs → failures evs = [].
Proof.
  induction 1 as [|[c r] evs [v Hv] _ IH]; [done|].
  simpl in Hv. subst r. exact IH.
Qed.

Lemma uncaught_finally {A} (body : M A) xs :
  uncaught body → inside body →
  uncaught (finally body (extern "__exit__" xs)).
Proof.
  intros Hb Hi E w. destruct (Hb E w) as (evs1 & Hlog1 & Ht1).
  destruct (Hi E w) as (evs1' & Hlog1' & Hin1).
  assert (evs1' = evs1) as ->.
  { rewrite Hlog1 in Hlog1'. by apply app_inv_head in Hlog1'. }
  unfold finally, extern. destruct (body E w) as [r w1]. simpl in *.
  destruct (E (Call "__exit__" xs) w1) as [[v|ec] paths]; simpl.
  - exists (evs1 ++ [(Call "__exit__" xs, Ok v)]).
    split; [by rewrite Hlog1, (assoc_L (++))|].
    destruct Ht1
      as [Hok1|(oks & c & e & exits & e' & -> & Hoks & Hex & -> & He & _)].
    + left. apply Forall_app. split; [done|]. repeat constructor. by exists v.
    + right. exists oks, c, e, (exits ++ [(Call "__exit__" xs, Ok v)]), e'.
      split; [by rewrite <- (assoc_L (++))|]. split; [done|].
      split; [apply Forall_app; split; [done|by repeat constructor]|].
      split; [done|]. split.
      * rewrite app_comm_cons, failures_snoc. by rewrite app_nil_r.
      * intros _. apply Forall_app in Hin1 as [_ Hin1]. by inversion Hin1.
  - exists (evs1 ++ [(Call "__exit__" xs, Raise ec)]).
    split; [by rewrite Hlog1, (assoc_L (++))|]. right.
    destruct Ht1
      as [Hok1|(oks & c & e & exits & e' & -> & Hoks & Hex & -> & He & _)].
    + exists evs1, (Call "__exit__" xs), ec, [], ec. repeat split; by try constructor.
    + exists oks, c, e, (exits ++ [(Call "__exit__" xs, Raise ec)]), ec.
      split; [by rewrite <- (assoc_L (++))|]. split; [done|].
      split; [apply Forall_app; split; [done|by repeat constructor]|].
      split; [done|]. split.
      * rewrite app_comm_cons, failures_snoc. apply last_snoc.
      * intros _. apply Forall_app in Hin1 as [_ Hin1]. by inversion Hin1.
Qed.

Lemma uncaught_with {A} f xs (body : value → M A) :
  (∀ v, uncaught (body v)) → (∀ v, inside (body v)) →
  uncaught (with_ f xs body).
Proof.
  intros Hb Hi. unfold with_. apply uncaught_bind; [apply uncaught_extern|].
  intros v. by apply uncaught_finally.
Qed.

Ltac uncaught_step :=
  lazymatch goal with
  | |- uncaught (_ ≫= _) => apply uncaught_bind; [|intros ?]
  | |- uncaught (mret _) => apply uncaught_ret
  | |- uncaught (lift _) => apply uncaught_lift
  | |- uncaught (extern _ _) => apply uncaught_extern
  | |- uncaught (with_ _ _ _) => apply uncaught_with; intros ?
  | |- uncaught (mapM _ _) => apply uncaught_mapM; intros ?
  | |- uncaught (os_path_exists _) => apply uncaught_os_path_exists
  | |- uncaught (os_makedirs _) => apply uncaught_os_makedirs
  | |- uncaught (if ?b then _ else _) => destruct b
  | |- uncaught (match ?p with _ => _ end) => destruct p
  | |- inside (_ ≫= _) => apply inside_bind; [|intros ?]
  | |- inside (mret _) => apply inside_ret
  | |- inside (lift _) => apply inside_lift
  | |- inside (extern _ _) => apply inside_extern; unfold in_with_block; set_solver
  | |- inside (mapM _ _) => apply inside_mapM; intros ?
  | |- inside (match ?p with _ => _ end) => destruct p
  end.

Lemma uncaught_acquisition : uncaught acquisition.
Proof.
  unfold acquisition, ensure_directory, download_and_extract.
  repeat uncaught_step.
Qed.

Lemma uncaught_notebook : uncaught notebook.
Proof.
  unfold notebook, load_graph, prune_graph, convert, load_image, evaluate_tf,
    evaluate_coreml.
  apply uncaught_bind; [apply uncaught_acquisition|intros _].
  repeat uncaught_step.
Qed.

(** The property depends on the code: a handler around the download
    breaks it. *)
Example handled_download_is_caught :
  ¬ uncaught (try_except
                (extern "urllib.urlretrieve" [VStr mobilenet_ssd_url])
                (fun _ => extern "time.sleep" [VInt 1])).
Proof.
  intros H.
  destruct (H (demo_env (Some "urllib.urlretrieve")) fresh_world)
    as (evs & Hlog & Ht).
  vm_compute in Hlog. subst evs.
  destruct Ht as [Hok|(oks & c & e & exits & e' & Heq & Hoks & Hex & Hr & _)].
  - inversion Hok as [|? ? [v Hv] _]. discriminate Hv.
  - destruct oks as [|ev1 [|ev2 oks]]; simplify_eq/=.
Qed.

Lemma stage_calls_outside f : f ∈ stage_calls → f ∉ in_with_block.
Proof.
  unfold stage_calls. intros H.
  repeat (apply elem_of_cons in H as [->|H];
          [by apply (bool_decide_eq_false_1 (_ ∈ in_with_block))|]).
  by apply elem_of_nil in H.
Qed.


Example notebook_runs :
  (notebook (demo_env None) fresh_world).1 = Ok (3 # 4, 2 # 3)%Q.
Proof. by vm_compute. Qed.

Example session_failure_runs_the_exit_only :
  let run := notebook (demo_env (Some "Session.run")) fresh_world in
  run.1 = Raise (LibraryError "Session.run")
  ∧ (fun ev : event => fn ev.1) <$> drop 35 (log run.2) = ["Session.run"; "__exit__"]
  ∧ failures (log run.2) = [LibraryError "Session.run"].
Proof. by vm_compute. Qed.

Example download_failure_ends_the_run :
  (notebook (demo_env (Some "urllib.urlretrieve")) fresh_world).1
  = Raise (LibraryError "urllib.urlretrieve")
  ∧ (fun ev => fn ev.1) <$> log (notebook (demo_env (Some "urllib.urlretrieve")) fresh_world).2
    = ["os.path.exists"; "os.makedirs"; "urllib.urlretrieve"].
Proof. by vm_compute. Qed.

Example prediction_failure_ends_the_run :
  (notebook (demo_env (Some "MLModel.predict")) fresh_world).1
  = Raise (LibraryError "MLModel.predict")
  ∧ last (log (notebook (demo_env (Some "MLModel.predict")) fresh_world).2)
    = Some (Call "MLModel.predict"
              [VNone;
               VDict [("Preprocessor__sub__0",
                       VArray {| shape := [1; 1; 3; 2; 2];
                                 data := data (normalize
                                   (NdArray [3; 2; 2]
                                      [0; 3; 6; 9; 1; 4; 7; 10; 2; 5; 8; 11]%Q)) |})];
               VBool true],
            Raise (LibraryError "MLModel.predict")).
Proof. by vm_compute. Qed.

(** ** The acquisition cell *)

Lemma download_and_extract_log E w :
  ∃ r rest,
    log (download_and_extract E w).2 = log w ++ ev_download r :: rest
    ∧ Forall (fun ev => ¬ calls_makedirs ev) rest.
Proof.
  unfold download_and_extract, mbind, M_bind, extern, record, calls_makedirs,
    ev_download.
  repeat (match goal with
          | |- context [E ?c ?w] => destruct (E c w) as [[?|?] ?]
          end; cbn [log fs fst snd]);
    eexists _, _; rewrite <- ?(assoc_L (++)); (split; [reflexivity|]);
    repeat constructor; simpl; discriminate.
Qed.

Lemma ensure_directory_present E w :
  example_dir ∈ fs w →
  ensure_directory E w
  = (Ok (), {| fs := fs w; log := log w ++ [ev_exists true] |}).
Proof.
  intros Hin. unfold ensure_directory, mbind, M_bind, os_path_exists.
  by rewrite bool_decide_eq_true_2.
Qed.

Lemma ensure_directory_absent E w :
  example_dir ∉ fs w →
  (∃ e, ensure_directory E w
        = (Raise e, {| fs := fs w;
                       log := log w ++ [ev_exists false; ev_makedirs (Raise e)] |}))
  ∨ ensure_directory E w
    = (Ok (), {| fs := {[example_dir]} ∪ fs w;
                 log := log w ++ [ev_exists false; ev_makedirs (Ok VNone)] |}).
Proof.
  intros Hin. unfold ensure_directory, mbind, M_bind, os_path_exists.
  rewrite bool_decide_eq_false_2 by done. cbn [negb].
  unfold os_makedirs, record. cbn [fs log]. rewrite decide_False by done.
  destruct (E _ _) as [[v|e] paths]; rewrite <- (assoc_L (++)); [by right|].
  left. by exists e.
Qed.



Example acquisition_creates_missing_directory :
  let w := (acquisition (demo_env None) fresh_world).2 in
  elements (fs w) = [example_dir]
  ∧ (fun ev => fn ev.1) <$> log w
    = ["os.path.exists"; "os.makedirs"; "urllib.urlretrieve"; "zipfile.ZipFile";
       "ZipFile.extractall"; "ZipFile.close"].
Proof. by vm_compute. Qed.

Example acquisition_keeps_existing_directory :
  let w := (acquisition (demo_env None) {| fs := {[example_dir]}; log := [] |}).2 in
  elements (fs w) = [example_dir]
  ∧ (fun ev => fn ev.1) <$> log w
    = ["os.path.exists"; "urllib.urlretrieve"; "zipfile.ZipFile";
       "ZipFile.extractall"; "ZipFile.close"].
Proof. by vm_compute. Qed.

(** * Further properties of the code *)

(** ** The size of the error *)

Lemma Qabs_zero (x : Q) : (Qabs x == 0)%Q → (x == 0)%Q.
Proof.
  intros H. apply Qle_antisym.
  - rewrite <- H. apply Qle_Qabs.
  - assert (H' : (Qabs (- x) == 0)%Q) by (by rewrite Qabs_opp).
    assert (Hle : (- x <= 0)%Q) by (rewrite <- H'; apply Qle_Qabs). lra.
Qed.

Lemma ratio_zero a b : (ratio a b == 0)%Q → (a == b)%Q.
Proof.
  unfold ratio. intros H.
  assert (Hden : (1 <= Qmax (Qmax a b) 1)%Q) by apply Q.le_max_r.
  set (den := Qmax (Qmax a b) 1) in *.
  assert (Habs : (Qabs (a - b) == 0)%Q).
  { assert (E : (Qabs (a - b) == Qabs (a - b) / den * den)%Q).
    { field. intros H0. rewrite H0 in Hden. lra. }
    rewrite E, H. ring. }
  apply Qabs_zero in Habs. lra.
Qed.

Lemma ratio_le_abs a b : (ratio a b <= Qabs (a - b))%Q.
Proof.
  unfold ratio.
  assert (Hden : (1 <= Qmax (Qmax a b) 1)%Q) by apply Q.le_max_r.
  set (den := Qmax (Qmax a b) 1) in *.
  pose proof (Qabs_nonneg (a - b)) as Hnn.
  apply Qle_shift_div_r; [lra|]. nra.
Qed.

Lemma ratio_le_1 a b : (0 <= a)%Q → (0 <= b)%Q → (ratio a b <= 1)%Q.
Proof.
  intros Ha Hb. unfold ratio.
  assert (Hden : (1 <= Qmax (Qmax a b) 1)%Q) by apply Q.le_max_r.
  assert (Hmax : (Qmax a b <= Qmax (Qmax a b) 1)%Q) by apply Q.le_max_l.
  assert (Hl : (a <= Qmax a b)%Q) by apply Q.le_max_l.
  assert (Hr : (b <= Qmax a b)%Q) by apply Q.le_max_r.
  set (den := Qmax (Qmax a b) 1) in *. set (m := Qmax a b) in *.
  apply Qle_shift_div_r; [lra|].
  apply Qabs_Qle_condition. split; lra.
Qed.
Lemma zip_with_ratio_zero xd yd :
  length xd = length yd →
  Forall (fun v => (v == 0)%Q) (zip_with ratio xd yd) → Forall2 Qeq xd yd.
Proof.
  revert yd. induction xd as [|a xd IH]; intros [|b yd] Hlen H; simplify_eq/=;
    constructor.
  - inversion H; subst. by apply ratio_zero.
  - inversion H; subst. by apply IH.
Qed.

Lemma is_maximum_zero m vals :
  is_maximum m vals → Forall (fun v => (0 <= v)%Q) vals →
  (m == 0)%Q → Forall (fun v => (v == 0)%Q) vals.
Proof.
  intros [_ Hall] Hnn Hm. rewrite Forall_forall in *. intros v Hv.
  apply Qle_antisym; [rewrite <- Hm; by apply Hall | by apply Hnn].
Qed.

Lemma data_length_eq x y : wf x → wf y → shape x = shape y →
  length (data x) = length (data y).
Proof. unfold wf. congruence. Qed.

(** X1: for well-formed, equal-shaped, non-empty arrays
    [max_relative_error a b] returns a number, and that number is 0
    exactly when the two arrays are equal element by element: the error
    does not miss a difference in any position. *)
Theorem max_relative_error_zero_iff_equal a b :
  wf a → wf b → shape a = shape b → data a ≠ [] →
  ∃ r, max_relative_error a b = Ok r
       ∧ ((r == 0)%Q ↔ Forall2 Qeq (data a) (data b)).
Proof.
  intros Ha Hb Hs Hne.
  destruct (max_relative_error_returns a b Ha Hb Hs Hne) as (r & Hr & Hmax).
  exists r. split; [done|]. split.
  - intros H0. apply zip_with_ratio_zero; [by apply data_length_eq|].
    eapply is_maximum_zero; [done|apply zip_with_ratio_nonneg|done].
  - intros Heq. destruct Hmax as [Hin _].
    pose proof (zip_with_ratio_equal _ _ Heq) as Hz.
    rewrite Forall_forall in Hz. by apply Hz.
Qed.

Lemma max_relative_error_zero_iff_equal_witness :
  ∃ r, max_relative_error array_p array_q = Ok r
       ∧ ((r == 0)%Q ↔ Forall2 Qeq (data array_p) (data array_q)).
Proof.
  apply (max_relative_error_zero_iff_equal array_p array_q);
    try reflexivity; discriminate.
Defined.

Lemma zip_with_ratio_bound (eps : Q) xd yd :
  Forall2 (fun a b => (Qabs (a - b) <= eps)%Q) xd yd →
  Forall (fun v => (v <= eps)%Q) (zip_with ratio xd yd).
Proof.
  induction 1 as [|a b xd yd Hab _ IH]; simpl; constructor; [|done].
  eapply Qle_trans; [apply ratio_le_abs | done].
Qed.

Lemma zip_with_ratio_le_1 xd yd :
  Forall (fun v => (0 <= v)%Q) xd → Forall (fun v => (0 <= v)%Q) yd →
  Forall (fun v => (v <= 1)%Q) (zip_with ratio xd yd).
Proof.
  intros Hx. revert yd. induction Hx as [|a xd Ha _ IH]; intros yd Hy; simpl.
  - constructor.
  - destruct Hy as [|b yd Hb Hy]; constructor; [by apply ratio_le_1 | by apply IH].
Qed.



(** X3: removing the axes of extent 1 from both arguments (as
    [rel_error] does with [np.squeeze]) does not change the outcome of
    [max_relative_error] on well-formed arrays of one shape. *)
Theorem max_relative_error_squeeze x y :
  wf x → wf y → shape x = shape y →
  max_relative_error (squeeze x) (squeeze y) = max_relative_error x y.
Proof.
  intros Hx Hy Hs.
  rewrite (max_relative_error_unfold x y) by done.
  rewrite max_relative_error_unfold;
    [done|by apply squeeze_wf|by apply squeeze_wf|].
  unfold squeeze. simpl. by rewrite Hs.
Qed.

Lemma max_relative_error_squeeze_witness :
  max_relative_error (squeeze (demo_array [1; 2; 1; 3]))
                     (squeeze (demo_array [1; 2; 1; 3]))
  = max_relative_error (demo_array [1; 2; 1; 3]) (demo_array [1; 2; 1; 3]).
Proof.
  apply (max_relative_error_squeeze (demo_array [1; 2; 1; 3])
                                    (demo_array [1; 2; 1; 3])); reflexivity.
Defined.

(** ** Transposition and the comparison of the two layouts *)

Lemma in_range_2 R C i :
  in_range [R; C] i ↔ ∃ r c, i = [r; c] ∧ r < R ∧ c < C.
Proof.
  unfold in_range. split.
  - intros H. inversion H as [|r ? i1 ? Hr H1]; subst.
    inversion H1 as [|c ? i2 ? Hc H2]; subst. inversion H2; subst. eauto.
  - intros (r & c & -> & Hr & Hc). by repeat constructor.
Qed.

(** The transpose of a matrix: its shape and its elements. *)
Lemma np_transpose_matrix a R C :
  shape a = [R; C] →
  ∃ t, np_transpose a [1; 0] = Ok t ∧ wf t ∧ shape t = [C; R]
       ∧ ∀ c r, c < C → r < R → item t [c; r] = item a [r; c].
Proof.
  intros Hs. destruct (np_transpose a [1; 0]) as [t|e] eqn:Htr.
  2:{ exfalso. unfold np_transpose in Htr. rewrite Hs in Htr.
      rewrite decide_True in Htr; [done|].
      split; [done|]. split; [|repeat constructor].
      apply NoDup_cons. split; [set_solver|]. apply NoDup_singleton. }
  exists t. split; [done|]. split; [by eapply np_transpose_wf|].
  assert (Hsh : shape t = [C; R]
                ∧ data t = (fun idx => item a (transposed_index [1; 0] idx))
                           <$> indices [C; R]).
  { unfold np_transpose in Htr. rewrite Hs in Htr.
    case_decide; [|done]. by injection Htr as <-. }
  destruct Hsh as [Hsh Hd]. split; [done|].
  intros c r Hc Hr. unfold item at 1. rewrite Hsh, Hd.
  by rewrite nth_fmap_indices by (repeat constructor; done).
Qed.

(** X4: transposing a well-formed matrix twice with the axes [(1, 0)],
    the permutation [rel_error] uses, gives the matrix back. *)
Theorem np_transpose_twice a R C :
  wf a → shape a = [R; C] →
  ∃ t, np_transpose a [1; 0] = Ok t ∧ np_transpose t [1; 0] = Ok a.
Proof.
  intros Hwf Hs. destruct (np_transpose_matrix a R C Hs) as (t & Ht & Hwt & Hst & Hit).
  exists t. split; [done|].
  destruct (np_transpose_matrix t C R Hst) as (u & Hu & Hwu & Hsu & Hiu).
  rewrite Hu. f_equal. destruct a as [sa da], u as [su du]. simpl in *. subst.
  f_equal.
  transitivity (item (NdArray [R; C] du) <$> indices [R; C]);
    [symmetry; apply (items_data _ Hwu)|].
  transitivity (item (NdArray [R; C] da) <$> indices [R; C]);
    [|apply (items_data _ Hwf)].
  apply list_fmap_ext. intros k i Hk.
  assert (Hi : in_range [R; C] i).
  { apply indices_in_range, list_elem_of_lookup. eauto. }
  apply in_range_2 in Hi as (r & c & -> & Hr & Hc).
  rewrite Hiu by done. by apply Hit.
Qed.

Lemma np_transpose_twice_witness :
  ∃ t, np_transpose array_a [1; 0] = Ok t ∧ np_transpose t [1; 0] = Ok array_a.
Proof. apply (np_transpose_twice array_a 2 2); reflexivity. Defined.

Lemma max_relative_error_positions x y :
  wf x → wf y → shape x = shape y → data x ≠ [] →
  ∃ r, max_relative_error x y = Ok r
       ∧ (∃ i, in_range (shape x) i ∧ r = ratio (item x i) (item y i))
       ∧ (∀ i, in_range (shape x) i → (ratio (item x i) (item y i) <= r)%Q).
Proof.
  intros Hx Hy Hs Hne.
  destruct (max_relative_error_returns x y Hx Hy Hs Hne) as (r & Hr & Hmax).
  exists r. split; [done|].
  rewrite <- (zip_with_positions ratio x y Hx Hy Hs) in Hmax.
  by apply (is_maximum_positions (fun i => ratio (item x i) (item y i))).
Qed.

Lemma max_relative_error_no_element x y :
  wf x → wf y → shape x = shape y → data x = [] →
  max_relative_error x y = Raise ValueError.
Proof.
  intros Hx Hy Hs He. rewrite max_relative_error_unfold by done.
  apply np_max_empty. simpl. by rewrite He.
Qed.

(** X5: for well-formed matrices [x] of shape [(R, C)] and [y] of shape
    [(C, R)], comparing [x] with the transpose of [y] gives the same
    outcome as comparing the transpose of [x] with [y]: it does not matter
    which of the two layouts is brought to the other. *)
Theorem max_relative_error_transpose_either x y R C :
  wf x → wf y → shape x = [R; C] → shape y = [C; R] →
  ∃ tx ty, np_transpose x [1; 0] = Ok tx ∧ np_transpose y [1; 0] = Ok ty
           ∧ same_result (max_relative_error x ty) (max_relative_error tx y).
Proof.
  intros Hx Hy Hsx Hsy.
  destruct (np_transpose_matrix x R C Hsx) as (tx & Htx & Hwtx & Hstx & Hitx).
  destruct (np_transpose_matrix y C R Hsy) as (ty & Hty & Hwty & Hsty & Hity).
  exists tx, ty. split; [done|]. split; [done|].
  assert (Hs1 : shape x = shape ty) by congruence.
  assert (Hs2 : shape tx = shape y) by congruence.
  destruct (decide (data x = [])) as [He|Hne].
  - rewrite (max_relative_error_no_element x ty) by done.
    rewrite (max_relative_error_no_element tx y); [done..|].
    apply length_zero_iff_nil. apply length_zero_iff_nil in He.
    unfold wf in *. rewrite Hwtx, Hstx. rewrite Hx, Hsx in He. simpl in *. lia.
  - assert (Hne' : data tx ≠ []).
    { intros He. apply Hne. apply length_zero_iff_nil.
      apply length_zero_iff_nil in He.
      unfold wf in *. rewrite Hx, Hsx. rewrite Hwtx, Hstx in He. simpl in *. lia. }
    destruct (max_relative_error_positions x ty Hx Hwty Hs1 Hne)
      as (r1 & -> & (i1 & Hi1 & E1) & B1).
    destruct (max_relative_error_positions tx y Hwtx Hy Hs2 Hne')
      as (r2 & -> & (i2 & Hi2 & E2) & B2).
    simpl. rewrite Hsx in Hi1, B1. rewrite Hstx in Hi2, B2.
    apply in_range_2 in Hi1 as (r & c & -> & Hr & Hc).
    apply in_range_2 in Hi2 as (c' & r' & -> & Hc' & Hr').
    apply Qle_antisym.
    + rewrite E1, Hity by done. rewrite <- Hitx by done.
      apply (B2 [c; r]). apply in_range_2. eauto.
    + rewrite E2, Hitx by done. rewrite <- Hity by done.
      apply (B1 [r'; c']). apply in_range_2. eauto.
Qed.

Lemma max_relative_error_transpose_either_witness :
  ∃ tx ty, np_transpose (demo_array [2; 3]) [1; 0] = Ok tx
           ∧ np_transpose (demo_array [3; 2]) [1; 0] = Ok ty
           ∧ same_result (max_relative_error (demo_array [2; 3]) ty)
                         (max_relative_error tx (demo_array [3; 2])).
Proof.
  apply (max_relative_error_transpose_either
           (demo_array [2; 3]) (demo_array [3; 2]) 2 3); reflexivity.
Defined.

(** X6: when the TensorFlow output of shape [(1, N, C)] has [N = 1] or
    [C = 1], [np.squeeze] removes that axis too, the transposition with
    the axes [(1, 0)] no longer fits, and [rel_error] raises [ValueError]
    whatever the CoreML output is. *)
Theorem rel_error_needs_two_axes coreml_out tf_out N C :
  shape tf_out = [1; N; C] → N = 1 ∨ C = 1 →
  rel_error coreml_out tf_out = Raise ValueError.
Proof.
  intros Hs H1. unfold rel_error, np_transpose.
  rewrite decide_False; [done|]. intros (Hlen & _). simpl in Hlen.
  rewrite Hs, filter_cons_False in Hlen by (intros H; by apply H).
  rewrite !filter_cons, filter_nil in Hlen.
  destruct H1 as [-> | ->].
  - rewrite decide_False in Hlen by (intros H; by apply H).
    case_decide; simpl in Hlen; lia.
  - destruct (decide (N ≠ 1)); [rewrite decide_False in Hlen by (intros H; by apply H)
                               |rewrite decide_False in Hlen by (intros H; by apply H)];
      simpl in Hlen; lia.
Qed.

Lemma rel_error_needs_two_axes_witness :
  rel_error (demo_array [1; 1; 4; 1; 1]) (demo_array [1; 1; 4]) = Raise ValueError.
Proof.
  apply (rel_error_needs_two_axes (demo_array [1; 1; 4; 1; 1])
                                  (demo_array [1; 1; 4]) 1 4);
    [reflexivity | left; reflexivity].
Defined.



Lemma broadcast_to_wf a s : wf (broadcast_to a s).
Proof. unfold wf, broadcast_to. simpl. by rewrite length_fmap, length_indices. Qed.

Lemma np_binary_broadcast f x y s :
  broadcast_shapes (shape x) (shape y) = Some s →
  np_binary f x y = np_binary f (broadcast_to x s) (broadcast_to y s).
Proof.
  intros Hs. rewrite (np_binary_same_shape f (broadcast_to x s) (broadcast_to y s))
    by (apply broadcast_to_wf || done).
  unfold np_binary at 1. by rewrite Hs.
Qed.

(** X8: [max_relative_error] does not ask for equal shapes: it compares
    the two arrays after numpy has broadcast them to their common shape,
    and raises [ValueError] exactly as the first operation does when the
    shapes have no common shape. *)
Theorem max_relative_error_broadcasts x y :
  max_relative_error x y
  = match broadcast_shapes (shape x) (shape y) with
    | Some s => max_relative_error (broadcast_to x s) (broadcast_to y s)
    | None => Raise ValueError
    end.
Proof.
  destruct (broadcast_shapes (shape x) (shape y)) as [s|] eqn:Hs.
  - unfold max_relative_error, np_maximum, np_subtract.
    by rewrite !(np_binary_broadcast _ x y s Hs).
  - unfold max_relative_error, np_maximum, np_binary. by rewrite Hs.
Qed.

(** X9: a CoreML output left in the layout of the TensorFlow output is
    found out when the two extents differ: for a TensorFlow output of
    shape [(1, N, C)] and a CoreML output that squeezes to [(N, C)], with
    [N], [C] and 1 pairwise different, [rel_error] raises [ValueError]. *)
Theorem rel_error_rejects_an_untransposed_output coreml_out tf_out N C :
  shape tf_out = [1; N; C] → N ≠ 1 → C ≠ 1 → N ≠ C →
  shape (squeeze coreml_out) = [N; C] →
  rel_error coreml_out tf_out = Raise ValueError.
Proof.
  intros Hs HN HC HNC Hc.
  assert (Hsq : shape (squeeze tf_out) = [N; C]).
  { unfold squeeze. simpl. rewrite Hs. by apply squeeze_shape_batch. }
  destruct (np_transpose_matrix _ N C Hsq) as (t & Ht & _ & Hst & _).
  unfold rel_error. rewrite Ht. cbn [mbind result_bind].
  unfold max_relative_error, np_maximum, np_binary. rewrite Hc, Hst.
  unfold broadcast_shapes. cbn [reverse rev_append broadcast_rev].
  rewrite decide_False by done. rewrite decide_False by done.
  by rewrite decide_False by done.
Qed.

Lemma rel_error_rejects_an_untransposed_output_witness :
  rel_error (demo_array [1; 1; 2; 1; 4]) (demo_array [1; 2; 4]) = Raise ValueError.
Proof.
  apply (rel_error_rejects_an_untransposed_output
           (demo_array [1; 1; 2; 1; 4]) (demo_array [1; 2; 4]) 2 4);
    try reflexivity; discriminate.
Defined.

Example max_relative_error_of_a_row_and_a_matrix :
  max_relative_error (NdArray [2] [1; 5]%Q) array_a = Ok (8 # 5)%Q.
Proof. by vm_compute. Qed.

(** ** Feature names *)

Lemma feature_name_app s1 s2 :
  feature_name (s1 +:+ s2) = feature_name s1 +:+ feature_name s2.
Proof.
  induction s1 as [|c s1 IH]; [done|].
  change (feature_name (String c (s1 +:+ s2))
          = (rename_char c +:+ feature_name s1) +:+ feature_name s2).
  cbn [feature_name]. by rewrite IH, string_app_assoc.
Qed.

Lemma chars_app s1 s2 :
  list_ascii_of_string (s1 +:+ s2)
  = list_ascii_of_string s1 ++ list_ascii_of_string s2.
Proof.
  induction s1 as [|c s1 IH]; [done|].
  change (c :: list_ascii_of_string (s1 +:+ s2)
          = c :: list_ascii_of_string s1 ++ list_ascii_of_string s2).
  by rewrite IH.
Qed.

Lemma rename_char_clean c d :
  d ∈ list_ascii_of_string (rename_char c) → d ≠ ":"%char ∧ d ≠ "/"%char.
Proof.
  unfold rename_char. case_decide as Hc; simpl.
  - intros [->|[->|[]%elem_of_nil]%elem_of_cons]%elem_of_cons; done.
  - intros [->|[]%elem_of_nil]%elem_of_cons. split; intros ->; tauto.
Qed.

(** X10: the CoreML name of a tensor holds neither a colon nor a
    slash. *)
Theorem coreml_name_has_no_colon_or_slash (tf_name : string) (c : ascii) :
  c ∈ list_ascii_of_string (coreml_name tf_name) →
  c ≠ ":"%char ∧ c ≠ "/"%char.
Proof.
  rewrite coreml_name_feature_name.
  induction tf_name as [|d s IH]; [by intros []%elem_of_nil|].
  cbn [feature_name]. rewrite chars_app.
  intros [H|H]%elem_of_app; [by eapply rename_char_clean | by apply IH].
Qed.

Lemma coreml_name_has_no_colon_or_slash_witness :
  "_"%char ≠ ":"%char ∧ "_"%char ≠ "/"%char.
Proof.
  apply (coreml_name_has_no_colon_or_slash "concat_1:0" "_"%char).
  apply (bool_decide_unpack _). by vm_compute.
Defined.

Lemma feature_name_clean s :
  (∀ c, c ∈ list_ascii_of_string s → c ≠ ":"%char ∧ c ≠ "/"%char) →
  feature_name s = s.
Proof.
  induction s as [|d s IH]; [done|]. intros H. cbn [feature_name].
  rewrite IH by (intros c Hc; apply H; by right).
  unfold rename_char. rewrite decide_False; [done|].
  destruct (H d) as [H1 H2]; [by left|]. tauto.
Qed.

Lemma string_app_length (s1 s2 : string) :
  String.length (s1 +:+ s2) = String.length s1 + String.length s2.
Proof.
  induction s1 as [|c s1 IH]; [done|].
  change (S (String.length (s1 +:+ s2)) = S (String.length s1 + String.length s2)).
  by rewrite IH.
Qed.

Lemma feature_name_length s :
  String.length s ≤ String.length (feature_name s).
Proof.
  induction s as [|d s IH]; [done|]. cbn [feature_name].
  rewrite string_app_length. unfold rename_char. case_decide; simpl; lia.
Qed.

Lemma feature_name_fixed s :
  feature_name s = s →
  ∀ c, c ∈ list_ascii_of_string s → c ≠ ":"%char ∧ c ≠ "/"%char.
Proof.
  induction s as [|d s IH]; [by intros _ c []%elem_of_nil|].
  cbn [feature_name]. unfold rename_char. case_decide as Hd.
  - intros Heq. exfalso. apply (f_equal String.length) in Heq.
    pose proof (feature_name_length s). rewrite string_app_length in Heq.
    simpl in Heq. lia.
  - intros Heq. injection Heq as Heq. intros c [->|Hc]%elem_of_cons.
    + split; intros ->; tauto.
    + by apply IH.
Qed.

(** X11: the renaming leaves a name unchanged exactly when the name has
    neither a colon nor a slash, and renaming a name twice is renaming it
    once. *)
Theorem coreml_name_fixed_points (tf_name : string) :
  (coreml_name tf_name = tf_name
   ↔ ∀ c, c ∈ list_ascii_of_string tf_name → c ≠ ":"%char ∧ c ≠ "/"%char)
  ∧ coreml_name (coreml_name tf_name) = coreml_name tf_name.
Proof.
  rewrite !coreml_name_feature_name. split.
  - split; [apply feature_name_fixed | apply feature_name_clean].
  - apply feature_name_clean. intros c Hc.
    induction tf_name as [|d s IH]; [by apply elem_of_nil in Hc|].
    cbn [feature_name] in Hc. rewrite chars_app in Hc.
    apply elem_of_app in Hc as [H|H]; [by eapply rename_char_clean | by apply IH].
Qed.

(** X12: the renaming works character by character: the CoreML name of
    a concatenation is the concatenation of the CoreML names (as for the
    prefix [import/] the notebook puts before tensor names). *)
Theorem coreml_name_app (s1 s2 : string) :
  coreml_name (s1 +:+ s2) = coreml_name s1 +:+ coreml_name s2.
Proof. rewrite !coreml_name_feature_name. apply feature_name_app. Qed.

(** X13: the renaming is not injective: tensor names that differ only
    in a colon, a slash or a double underscore at one place get the same
    CoreML name. *)
Theorem coreml_name_collides (s1 s2 : string) :
  coreml_name (s1 +:+ ":" +:+ s2) = coreml_name (s1 +:+ "/" +:+ s2)
  ∧ coreml_name (s1 +:+ ":" +:+ s2) = coreml_name (s1 +:+ "__" +:+ s2)
  ∧ s1 +:+ ":" +:+ s2 ≠ s1 +:+ "/" +:+ s2.
Proof.
  rewrite !coreml_name_feature_name, !feature_name_app. split; [done|].
  split; [done|]. intros H. apply (inj (String.app s1)) in H. discriminate H.
Qed.

(** ** The preprocessing of the image *)

(** X14: the scaling [* 2.0 / 255 - 1] keeps the shape and takes pixel
    values between 0 and 255 to values between -1 and 1. *)
Theorem normalize_range (pixels : ndarray) :
  wf pixels →
  Forall (fun v => (0 <= v)%Q ∧ (v <= 255)%Q) (data pixels) →
  wf (normalize pixels) ∧ shape (normalize pixels) = shape pixels
  ∧ Forall (fun v => (-1 <= v)%Q ∧ (v <= 1)%Q) (data (normalize pixels)).
Proof.
  intros Hwf Hr. unfold normalize, wf. simpl.
  split; [by rewrite length_fmap|]. split; [done|].
  apply Forall_fmap. eapply Forall_impl; [exact Hr|].
  intros v [H0 H255]. simpl.
  assert (E : (v * 2 / 255 - 1 == v * (2 # 255) - 1)%Q) by field.
  rewrite E. split; lra.
Qed.

Lemma normalize_range_witness :
  wf (normalize (demo_array [2; 2; 3]))
  ∧ shape (normalize (demo_array [2; 2; 3])) = shape (demo_array [2; 2; 3])
  ∧ Forall (fun v => (-1 <= v)%Q ∧ (v <= 1)%Q)
           (data (normalize (demo_array [2; 2; 3]))).
Proof.
  apply (normalize_range (demo_array [2; 2; 3])); [reflexivity|].
  repeat constructor; by vm_compute.
Defined.

Lemma item_new_axes_1 a b idx :
  new_axes 1 3 a = Ok b → item b (0 :: idx) = item a idx.
Proof.
  unfold new_axes. case_decide; [|done]. intros [= <-].
  unfold item. simpl. done.
Qed.

(** X15: the two runtimes are given the same image: for an image array
    of shape [(H, W, C)] the TensorFlow input has shape [(1, H, W, C)],
    the CoreML input has shape [(1, 1, C, H, W)], and pixel [(h, w, c)]
    of the image is element [(0, h, w, c)] of the first and element
    [(0, 0, c, h, w)] of the second. *)
Theorem runtime_inputs_hold_the_same_image (img_array : ndarray) (H W C : nat) :
  shape img_array = [H; W; C] →
  ∃ batch_img_array chw img_array_coreml,
    new_axes 1 3 img_array = Ok batch_img_array
    ∧ np_transpose img_array [2; 0; 1] = Ok chw
    ∧ new_axes 2 3 chw = Ok img_array_coreml
    ∧ shape batch_img_array = [1; H; W; C]
    ∧ shape img_array_coreml = [1; 1; C; H; W]
    ∧ ∀ h w c, h < H → w < W → c < C →
        item batch_img_array [0; h; w; c] = item img_array [h; w; c]
        ∧ item img_array_coreml [0; 0; c; h; w] = item img_array [h; w; c].
Proof.
  intros Hs.
  assert (Hb : new_axes 1 3 img_array
               = Ok {| shape := [1; H; W; C]; data := data img_array |}).
  { unfold new_axes. rewrite Hs. by rewrite decide_True by (simpl; lia). }
  assert (Ht : np_transpose img_array [2; 0; 1]
               = Ok {| shape := [C; H; W];
                       data := (fun idx => item img_array
                                             (transposed_index [2; 0; 1] idx))
                               <$> indices [C; H; W] |}).
  { unfold np_transpose. rewrite Hs. rewrite decide_True; [done|].
    split; [done|]. split; [|repeat constructor].
    repeat (apply NoDup_cons; split; [set_solver|]). apply NoDup_nil_2. }
  eexists _, _, _. split; [exact Hb|]. split; [exact Ht|].
  split; [unfold new_axes; by rewrite decide_True by (simpl; lia)|].
  split; [done|]. split; [done|].
  intros h w c Hh Hw Hc. split.
  - apply item_new_axes_1. exact Hb.
  - unfold item at 1. simpl.
    replace (c * (H * (W * 1)) + (h * (W * 1) + (w * 1 + 0)))
      with (ravel [C; H; W] [c; h; w]) by (simpl; lia).
    by rewrite nth_fmap_indices by (repeat constructor; done).
Qed.

Lemma runtime_inputs_hold_the_same_image_witness :
  let img_array := demo_array [2; 2; 3] in
  ∃ batch_img_array chw img_array_coreml,
    new_axes 1 3 img_array = Ok batch_img_array
    ∧ np_transpose img_array [2; 0; 1] = Ok chw
    ∧ new_axes 2 3 chw = Ok img_array_coreml
    ∧ shape batch_img_array = [1; 2; 2; 3]
    ∧ shape img_array_coreml = [1; 1; 3; 2; 2]
    ∧ ∀ h w c, h < 2 → w < 2 → c < 3 →
        item batch_img_array [0; h; w; c] = item img_array [h; w; c]
        ∧ item img_array_coreml [0; 0; c; h; w] = item img_array [h; w; c].
Proof.
  apply (runtime_inputs_hold_the_same_image (demo_array [2; 2; 3]) 2 2 3).
  reflexivity.
Defined.

(** ** With blocks *)

Lemma tally_app p evs1 evs2 : tally p (evs1 ++ evs2) = tally p evs1 + tally p evs2.
Proof. unfold tally. by rewrite List.filter_app, length_app. Qed.

Lemma balanced_ret {A} (a : A) : balanced (mret a).
Proof. intros E w. exists []. simpl. by rewrite app_nil_r. Qed.

Lemma balanced_lift {A} (r : result A) : balanced (lift r).
Proof. intros E w. exists []. simpl. by rewrite app_nil_r. Qed.

Lemma tally_plain f xs r :
  plain f → tally entered [(Call f xs, r)] = 0 ∧ tally exited [(Call f xs, r)] = 0.
Proof.
  intros [Hc He]. unfold tally, entered, exited. simpl.
  rewrite bool_decide_eq_false_2 by done.
  by rewrite (bool_decide_eq_false_2 (f = "__exit__")) by done.
Qed.

Lemma balanced_extern f xs : plain f → balanced (extern f xs).
Proof.
  intros Hf E w. unfold extern. destruct (E (Call f xs) w) as [r paths]. simpl.
  exists [(Call f xs, r)]. split; [done|].
  destruct (tally_plain f xs r Hf) as [-> ->]. done.
Qed.

Lemma balanced_os_path_exists path : balanced (os_path_exists path).
Proof. intros E w. simpl. eexists. split; [done|]. done. Qed.

Lemma balanced_os_makedirs path : balanced (os_makedirs path).
Proof.
  intros E w. unfold os_makedirs. case_decide.
  - simpl. eexists. split; [done|]. done.
  - destruct (E _ w) as [[v|e] paths]; simpl; eexists; (split; [done|]); done.
Qed.

Lemma balanced_bind {A B} (m : M A) (k : A → M B) :
  balanced m → (∀ a, balanced (k a)) → balanced (m ≫= k).
Proof.
  intros Hm Hk E w. destruct (Hm E w) as (evs1 & Hlog1 & H1).
  unfold mbind, M_bind. destruct (m E w) as [[a|e] w1]; simpl in *.
  - destruct (Hk a E w1) as (evs2 & Hlog2 & H2).
    exists (evs1 ++ evs2). rewrite Hlog2, Hlog1, app_assoc. split; [done|].
    rewrite !tally_app. lia.
  - by exists evs1.
Qed.

Lemma balanced_mapM {A B} (f : A → M B) (l : list A) :
  (∀ a, balanced (f a)) → balanced (mapM f l).
Proof.
  intros Hf. induction l as [|a l IH]; [apply balanced_ret|].
  simpl. apply balanced_bind; [done|]. intros b.
  apply balanced_bind; [done|]. intros bs. apply balanced_ret.
Qed.

Lemma tally_cons p ev evs :
  tally p (ev :: evs) = (if p ev then 1 else 0) + tally p evs.
Proof. unfold tally. simpl. by destruct (p ev). Qed.

Lemma context_manager_not_exit f : f ∈ context_managers → f ≠ "__exit__".
Proof.
  intros Hf ->. revert Hf.
  by apply (bool_decide_eq_false_1 ("__exit__" ∈ context_managers)).
Qed.

Lemma entered_enter f xs v : f ∈ context_managers → entered (Call f xs, Ok v) = true.
Proof. intros Hf. unfold entered. simpl. by rewrite bool_decide_eq_true_2. Qed.

Lemma exited_enter f xs r : f ∈ context_managers → exited (Call f xs, r) = false.
Proof.
  intros Hf. unfold exited. simpl. apply bool_decide_eq_false_2.
  by apply context_manager_not_exit.
Qed.

Lemma entered_raise c e : entered (c, Raise e) = false.
Proof. unfold entered. simpl. apply andb_false_r. Qed.

Lemma balanced_with {A} f xs (body : value → M A) :
  f ∈ context_managers → (∀ v, balanced (body v)) → balanced (with_ f xs body).
Proof.
  intros Hf Hb E w. pose proof (context_manager_not_exit f Hf) as Hne.
  unfold with_, mbind, M_bind, extern at 1.
  destruct (E (Call f xs) w) as [[v|e] paths] eqn:He; simpl.
  - set (w0 := record (Call f xs) (Ok v) paths w).
    destruct (Hb v E w0) as (evs & Hlog & Hbal).
    unfold finally, extern. destruct (body v E w0) as [r w1]. simpl in *.
    assert (Hcount : ∀ r', tally entered ((Call f xs, Ok v) :: evs
                                           ++ [(Call "__exit__" [v], r')])
                           = tally exited ((Call f xs, Ok v) :: evs
                                           ++ [(Call "__exit__" [v], r')])).
    { intros r'. rewrite !tally_cons, !tally_app, !tally_cons, Hbal.
      rewrite entered_enter, exited_enter by done.
      change (exited (Call "__exit__" [v], r')) with true.
      change (entered (Call "__exit__" [v], r')) with false.
      unfold tally. simpl. lia. }
    destruct (E (Call "__exit__" [v]) w1) as [[v'|e'] paths']; simpl;
      eexists; (split; [|apply Hcount]);
      rewrite Hlog; unfold w0; simpl; by rewrite <- !(assoc_L (++)).
  - exists [(Call f xs, Raise e)]. split; [done|].
    rewrite !tally_cons. by rewrite entered_raise, exited_enter.
Qed.

Ltac balanced_step :=
  lazymatch goal with
  | |- balanced (_ ≫= _) => apply balanced_bind; [|intros ?]
  | |- balanced (mret _) => apply balanced_ret
  | |- balanced (lift _) => apply balanced_lift
  | |- balanced (extern _ _) =>
      apply balanced_extern; split;
      [by apply (bool_decide_eq_false_1 (_ ∈ context_managers)) | discriminate]
  | |- balanced (with_ _ _ _) =>
      apply balanced_with; [unfold context_managers; set_solver|intros ?]
  | |- balanced (mapM _ _) => apply balanced_mapM; intros ?
  | |- balanced (os_path_exists _) => apply balanced_os_path_exists
  | |- balanced (os_makedirs _) => apply balanced_os_makedirs
  | |- balanced (if ?b then _ else _) => destruct b
  | |- balanced (match ?p with _ => _ end) => destruct p
  end.

Lemma balanced_notebook : balanced notebook.
Proof.
  unfold notebook, acquisition, ensure_directory, download_and_extract,
    load_graph, prune_graph, convert, load_image, evaluate_tf, evaluate_coreml.
  repeat balanced_step.
Qed.

(** X16: however a run of the notebook ends, it has left every [with]
    block it entered: the log has as many exit calls as context managers
    that were entered. *)
Theorem notebook_leaves_every_with_block (E : env) (w : world) :
  ∃ evs, log (notebook E w).2 = log w ++ evs
         ∧ tally entered evs = tally exited evs.
Proof. apply balanced_notebook. Qed.

(** ** The archive *)

(** X17: the archive is closed exactly when its extraction succeeded:
    the cell has no [with] block and no [finally] around the archive, so an
    archive that was opened and whose extraction raises is never
    closed. *)
Theorem archive_closed_only_after_extraction (E : env) (w : world) :
  ∃ evs, log (download_and_extract E w).2 = log w ++ evs
    ∧ (Exists (fun ev => fn ev.1 = "ZipFile.close") evs
       ↔ Exists (fun ev => fn ev.1 = "ZipFile.extractall" ∧ event_ok ev) evs)
    ∧ (Exists (fun ev => fn ev.1 = "ZipFile.extractall" ∧ ¬ event_ok ev) evs →
       Exists (fun ev => fn ev.1 = "zipfile.ZipFile" ∧ event_ok ev) evs
       ∧ ¬ Exists (fun ev => fn ev.1 = "ZipFile.close") evs).
Proof.
  unfold download_and_extract, mbind, M_bind, extern, record.
  repeat (match goal with
          | |- context [E ?c ?w] => destruct (E c w) as [[?|?] ?]
          end; cbn [log fs fst snd]);
    eexists; rewrite <- ?(assoc_L (++)); (split; [reflexivity|]);
    apply (bool_decide_unpack _); by vm_compute.
Qed.

(** ** The outputs of the CoreML model *)

Lemma np_transpose_chw a :
  length (shape a) = 3 → ∃ t, np_transpose a [2; 0; 1] = Ok t ∧ length (shape t) = 3.
Proof.
  intros Hlen. unfold np_transpose. rewrite Hlen. rewrite decide_True.
  - eexists. split; [done|]. simpl. done.
  - split; [done|]. split; [|repeat constructor].
    repeat (apply NoDup_cons; split; [set_solver|]). apply NoDup_nil_2.
Qed.

Lemma getitem_missing items key :
  key ∉ items.*1 → getitem (VDict items) key = Raise KeyError.
Proof.
  intros Hk. unfold getitem.
  destruct (List.find _ items) as [kv|] eqn:Hf; [|done].
  apply List.find_some in Hf as [Hin Heq]. exfalso. apply Hk.
  apply bool_decide_eq_true_1 in Heq. rewrite <- Heq.
  apply list_elem_of_fmap. exists kv. split; [done|]. by apply list_elem_of_In.
Qed.

Lemma getitem_dict_raise items key e :
  getitem (VDict items) key = Raise e → e = KeyError.
Proof. unfold getitem. destruct (List.find _ items); [done|]. by intros [= <-]. Qed.

(** X18: once the prediction of an image array with three axes has
    returned [d], the outcome of the cell is that of reading [d] at
    [concat__0] and then at [concat_1__0], the renamed tensor names; a
    dictionary that lacks one of the two names ends the cell with
    [KeyError]. *)
Theorem coreml_outputs_are_looked_up_by_feature_name
    (img_array : ndarray) (E : env) (w : world) (c : call) (d : value) :
  length (shape img_array) = 3 →
  last (log (evaluate_coreml img_array E w).2) = Some (c, Ok d) →
  fn c = "MLModel.predict" →
  (evaluate_coreml img_array E w).1
  = (box ← getitem d "concat__0"; scores ← getitem d "concat_1__0";
     mret (box, scores))
  ∧ ∀ items, d = VDict items →
             "concat__0" ∉ items.*1 ∨ "concat_1__0" ∉ items.*1 →
             (evaluate_coreml img_array E w).1 = Raise KeyError.
Proof.
  intros Hlen Hlast Hfn.
  assert (Hrun : (evaluate_coreml img_array E w).1
                 = (box ← getitem d "concat__0"; scores ← getitem d "concat_1__0";
                    mret (box, scores))).
  { destruct (np_transpose_chw img_array Hlen) as (t & Ht & Hlt).
    unfold evaluate_coreml in *.
    change (coreml_output_names tf_output_names)
      with ["concat__0"; "concat_1__0"] in *.
    cbv [mbind M_bind lift extern mapM mret M_ret] in *.
    rewrite Ht in *. unfold new_axes in *. rewrite decide_True in * by lia.
    destruct (E _ w) as [[m|e] p1]; cbn [record log fs fst snd] in *;
      [|rewrite last_snoc in Hlast; by injection Hlast].
    destruct (E _ _) as [[d'|e] p2]; cbn [record log fs fst snd] in *;
      [|rewrite last_snoc in Hlast; by injection Hlast].
    destruct (getitem d' "concat__0") as [b|e1] eqn:H1;
      destruct (getitem d' "concat_1__0") as [s|e2] eqn:H2;
      cbn [record log fs fst snd] in *;
      rewrite last_snoc in Hlast; injection Hlast as _ <-;
      by rewrite H1, ?H2. }
  split; [done|]. intros items -> Hmiss. rewrite Hrun.
  destruct Hmiss as [Hm|Hm].
  - rewrite (getitem_missing _ _ Hm). reflexivity.
  - rewrite (getitem_missing _ "concat_1__0" Hm).
    destruct (getitem (VDict items) "concat__0") as [b|e] eqn:Hb; [reflexivity|].
    by rewrite (getitem_dict_raise _ _ _ Hb).
Qed.

Lemma coreml_outputs_are_looked_up_by_feature_name_witness :
  let d := VDict [("concat__0", VArray (demo_array [1; 1; 4; 1; 2]));
                  ("concat_1__0", VArray (demo_array [1; 1; 3; 1; 2]))] in
  let run := evaluate_coreml (demo_array [2; 2; 3]) (demo_env None) fresh_world in
  run.1 = (box ← getitem d "concat__0"; scores ← getitem d "concat_1__0";
           mret (box, scores))
  ∧ ∀ items, d = VDict items →
             "concat__0" ∉ items.*1 ∨ "concat_1__0" ∉ items.*1 →
             run.1 = Raise KeyError.
Proof.
  eapply (coreml_outputs_are_looked_up_by_feature_name
            (demo_array [2; 2; 3]) (demo_env None) fresh_world);
    [reflexivity | vm_compute; reflexivity | reflexivity].
Defined.

(** ** The example directory *)

(** X19: after [ensure_directory] has returned, the directory exists,
    and running it again makes the test only: no second [os.makedirs],
    which would raise on the existing directory. *)
Theorem ensure_directory_can_be_rerun (E E' : env) (w w' : world) :
  ensure_directory E w = (Ok (), w') →
  example_dir ∈ fs w'
  ∧ ensure_directory E' w'
    = (Ok (), {| fs := fs w'; log := log w' ++ [ev_exists true] |}).
Proof.
  intros Hrun.
  assert (Hin : example_dir ∈ fs w').
  { destruct (decide (example_dir ∈ fs w)) as [Hp|Ha].
    - rewrite (ensure_directory_present E w Hp) in Hrun. by injection Hrun as <-.
    - destruct (ensure_directory_absent E w Ha) as [[e He]|He];
        rewrite He in Hrun; [done|]. injection Hrun as <-. simpl. set_solver. }
  split; [done|]. by apply ensure_directory_present.
Qed.

Lemma ensure_directory_can_be_rerun_witness :
  let w' := (ensure_directory (demo_env None) fresh_world).2 in
  example_dir ∈ fs w'
  ∧ ensure_directory (demo_env None) w'
    = (Ok (), {| fs := fs w'; log := log w' ++ [ev_exists true] |}).
Proof.
  apply (ensure_directory_can_be_rerun (demo_env None) (demo_env None) fresh_world).
  by vm_compute.
Defined.

(** X20: [ensure_directory] raises only when the directory was absent
    and the operating system refused to create it; the exception is the
    one of that [os.makedirs] call.  The error of [os.makedirs] on an
    existing directory cannot occur. *)
Theorem ensure_directory_fails_only_if_makedirs_is_refused (E : env) (w : world) (e : exc) :
  (ensure_directory E w).1 = Raise e →
  (example_dir ∉ fs w)
  ∧ ∃ paths, E (Call "os.makedirs" [VStr example_dir])
               {| fs := fs w; log := log w ++ [ev_exists false] |}
             = (Raise e, paths).
Proof.
  intros Hrun. destruct (decide (example_dir ∈ fs w)) as [Hp|Ha].
  { by rewrite (ensure_directory_present E w Hp) in Hrun. }
  split; [done|]. revert Hrun.
  unfold ensure_directory, mbind, M_bind, os_path_exists.
  rewrite bool_decide_eq_false_2 by done. cbn [negb].
  unfold os_makedirs, record. cbn [fs log]. rewrite decide_False by done.
  destruct (E _ _) as [[v|e'] paths]; [done|]. intros [= <-]. by exists paths.
Qed.

Lemma ensure_directory_fails_only_if_makedirs_is_refused_witness :
  let E := demo_env (Some "os.makedirs") in
  (example_dir ∉ fs fresh_world)
  ∧ ∃ paths, E (Call "os.makedirs" [VStr example_dir])
               {| fs := fs fresh_world;
                  log := log fresh_world ++ [ev_exists false] |}
             = (Raise (LibraryError "os.makedirs"), paths).
Proof.
  apply (ensure_directory_fails_only_if_makedirs_is_refused
           (demo_env (Some "os.makedirs")) fresh_world).
  by vm_compute.
Defined.

Example makedirs_alone_fails_on_an_existing_directory :
  (os_makedirs example_dir (demo_env None) {| fs := {[example_dir]}; log := [] |}).1
  = Raise OSError.
Proof. by vm_compute. Qed.

(** ** Successful runs *)

(** Symbolic execution of a run recorded in hypothesis [H]: the library
    answers and the pure steps are split into their cases, and the cases
    that contradict [H] are closed. *)
Ltac run_step E H :=
  match type of H with
  | context [E ?c ?w0] => destruct (E c w0) as [[?|?] ?] eqn:?
  | context [match ?r with Ok _ => _ | Raise _ => _ end] => destruct r eqn:?
  | context [match ?p with pair _ _ => _ end] => is_var p; destruct p
  end; cbn [fst snd unpack2] in H; try discriminate H.

Ltac run_notebook E H :=
  unfold notebook, acquisition, ensure_directory, download_and_extract,
    load_graph, prune_graph, convert, load_image, evaluate_tf, evaluate_coreml in H;
  change (coreml_output_names tf_output_names)
    with ["concat__0"; "concat_1__0"] in H;
  change tf_output_names with ["concat:0"; "concat_1:0"] in H;
  cbv [mbind M_bind lift extern mapM mret M_ret with_ finally
       os_path_exists os_makedirs] in H;
  cbn [record fs] in H;
  repeat run_step E H.

(** The two tests of the directory are split into their cases. *)
Ltac run_choice H :=
  match type of H with
  | context [bool_decide ?P] => destruct (bool_decide P) eqn:?
  | context [decide ?P] => destruct (decide P)
  end; cbn [negb] in H; try discriminate H.

(** The answers of the two runtimes in a run that was executed. *)
Ltac runtime_answers E tb ts cb cs :=
  match goal with
  | Hrun : E (Call "Session.run" ?xs) _ = (Ok ?v, _),
    Hpredict : E (Call "MLModel.predict" ?ys) _ = (Ok ?d, _) |- _ =>
      eexists; exists (Call "Session.run" xs), v, tb, ts,
        (Call "MLModel.predict" ys), d, cb, cs
  end.

Lemma compare_outputs_ok v1 v2 v3 v4 b s :
  compare_outputs v1 v2 v3 v4 = Ok (b, s) →
  ∃ cb cs tb ts,
    v1 = VArray cb ∧ v2 = VArray cs ∧ v3 = VArray tb ∧ v4 = VArray ts
    ∧ rel_error cb tb = Ok b ∧ rel_error cs ts = Ok s.
Proof.
  unfold compare_outputs. intros H.
  destruct v1 as [| | | |cb| | |]; try discriminate H.
  destruct v3 as [| | | |tb| | |]; try discriminate H.
  cbn [as_array mbind result_bind] in H.
  destruct (rel_error cb tb) as [b'|] eqn:Hb; [|discriminate H].
  destruct v2 as [| | | |cs| | |]; try discriminate H.
  destruct v4 as [| | | |ts| | |]; try discriminate H.
  cbn [as_array mbind result_bind] in H.
  destruct (rel_error cs ts) as [s'|] eqn:Hs; [|discriminate H].
  injection H as <- <-. by eexists _, _, _, _.
Qed.

(** X21: a run of the notebook that returns has made the library calls
    of the cells in the order of the source, every one of them returned,
    every [with] block was left right after its body, and [os.makedirs]
    was called exactly when the directory was absent at the start. *)
Theorem successful_run_calls E w v w' :
  notebook E w = (Ok v, w') →
  ∃ evs, log w' = log w ++ evs
         ∧ Forall event_ok evs
         ∧ (fun ev : event => fn ev.1) <$> evs
           = calls_of_a_successful_run (bool_decide (example_dir ∈ fs w)).
Proof.
  intros H.
  destruct (decide (example_dir ∈ fs w)) as [Hin|Hin].
  - rewrite (bool_decide_eq_true_2 _ Hin).
    run_notebook E H.
    rewrite (bool_decide_eq_true_2 _ Hin) in H. cbn [negb] in H.
    repeat run_step E H.
    injection H as <- <-. cbn [record log].
    eexists. split; [rewrite <- !(assoc_L (++)); reflexivity|].
    split; [|reflexivity].
    repeat (apply Forall_cons; split; [by eexists|]). apply Forall_nil_2.
  - rewrite (bool_decide_eq_false_2 _ Hin).
    run_notebook E H.
    rewrite (bool_decide_eq_false_2 _ Hin) in H. cbn [negb] in H.
    rewrite (decide_False (P := example_dir ∈ fs w)) in H by done.
    repeat run_step E H.
    injection H as <- <-. cbn [record log].
    eexists. split; [rewrite <- !(assoc_L (++)); reflexivity|].
    split; [|reflexivity].
    repeat (apply Forall_cons; split; [by eexists|]). apply Forall_nil_2.
Qed.

Lemma successful_run_calls_witness :
  let w' := (notebook (demo_env None) fresh_world).2 in
  ∃ evs, log w' = log fresh_world ++ evs
         ∧ Forall event_ok evs
         ∧ (fun ev : event => fn ev.1) <$> evs
           = calls_of_a_successful_run (bool_decide (example_dir ∈ fs fresh_world)).
Proof.
  apply (successful_run_calls (demo_env None) fresh_world (3 # 4, 2 # 3)%Q).
  by vm_compute.
Defined.

(** X22: the two numbers a run of the notebook returns are the errors of
    the outputs of that run: the answer of [Session.run] unpacks into two
    arrays, the answer of [MLModel.predict] holds two arrays under the
    renamed tensor names, and the numbers are [rel_error] of the box
    encodings and of the scores, CoreML array first. *)
Theorem notebook_reports_the_errors_of_the_run
    E w rel_error_box rel_error_score w' :
  notebook E w = (Ok (rel_error_box, rel_error_score), w') →
  ∃ evs c_run tf_values tf_box tf_scores c_predict d coreml_box coreml_scores,
    log w' = log w ++ evs
    ∧ (c_run, Ok tf_values) ∈ evs ∧ fn c_run = "Session.run"
    ∧ unpack2 tf_values = Ok (VArray tf_box, VArray tf_scores)
    ∧ (c_predict, Ok d) ∈ evs ∧ fn c_predict = "MLModel.predict"
    ∧ getitem d "concat__0" = Ok (VArray coreml_box)
    ∧ getitem d "concat_1__0" = Ok (VArray coreml_scores)
    ∧ rel_error coreml_box tf_box = Ok rel_error_box
    ∧ rel_error coreml_scores tf_scores = Ok rel_error_score.
Proof.
  intros H. run_notebook E H;
    repeat first [run_step E H | run_choice H].
  all: injection H as <- <- <-; cbn [record log].
  all: match goal with
       | Hc : compare_outputs _ _ _ _ = Ok _ |- _ =>
           apply compare_outputs_ok in Hc
             as (cb & cs & tb & ts & -> & -> & -> & -> & Hb & Hs)
       end.
  all: runtime_answers E tb ts cb cs.
  all: split; [rewrite <- !(assoc_L (++)); reflexivity|].
  all: split_and!; try done.
  all: repeat first [apply list_elem_of_here | apply list_elem_of_further].
Qed.

Lemma notebook_reports_the_errors_of_the_run_witness :
  let w' := (notebook (demo_env None) fresh_world).2 in
  ∃ evs c_run tf_values tf_box tf_scores c_predict d coreml_box coreml_scores,
    log w' = log fresh_world ++ evs
    ∧ (c_run, Ok tf_values) ∈ evs ∧ fn c_run = "Session.run"
    ∧ unpack2 tf_values = Ok (VArray tf_box, VArray tf_scores)
    ∧ (c_predict, Ok d) ∈ evs ∧ fn c_predict = "MLModel.predict"
    ∧ getitem d "concat__0" = Ok (VArray coreml_box)
    ∧ getitem d "concat_1__0" = Ok (VArray coreml_scores)
    ∧ rel_error coreml_box tf_box = Ok (3 # 4)%Q
    ∧ rel_error coreml_scores tf_scores = Ok (2 # 3)%Q.
Proof.
  apply (notebook_reports_the_errors_of_the_run (demo_env None) fresh_world).
  by vm_compute.
Defined.
